(** * Frame extractor: a shallow embedding of the frame pipeline

    Source: src/frame_extractor_termux_windows.c (and the identical queue
    and progress code of src/frame_extractor.c).

    - [FrameQueue]: the ring buffer [frames]/[frame_numbers] with
      [head], [tail], [count] and the [done] flag, guarded by one mutex.
      Each of [queue_push], [queue_pop], [queue_set_done] runs inside the
      mutex, so it is modelled as one atomic step; a call whose wait loop
      would sleep is "blocked" ([None] / [PopBlocked]): in a linearised
      run it happens later, when its guard is false.
    - [progress_update]: the counters and the rendered quantities.
    - [main]: target selection, the empty-selection exit, the producer
      loop and the worker pool.
    - [frame_saver_thread]: the output file name.
    - [parse_frames_string]: the [-frames] argument parser.
    - [progress_finish] and the bar drawn by [progress_update];
      [save_yuv_frame].
    - the argument loop of [main] over the full C [Config] ([Args]) and
      [get_bitrate_option].
    - [parse_time_to_frame] and the time range of [extract_audio_thread],
      over a small [sscanf] for the formats they use. *)

From Stdlib Require Import ZArith Lia QArith Qminmax Qround String Ascii.
From stdpp Require Import base list.

Open Scope Z_scope.

(* ================================================================== *)
(** ** Bounded frame queue (queue_init / queue_push / queue_pop /
       queue_set_done) *)

Definition MAX_QUEUE_SIZE : nat := 32.
Definition NUM_SAVER_THREADS : nat := 4.

Section Queue.

(** The decoded picture is opaque to the queue; [av_frame_clone] copies
    it, so a slot holds an independent copy of the frame value.  A slot
    is [None] while it still holds the NULL of [memset]. *)
Variable Frame : Type.

Record FrameQueue := mkQueue {
  frames : list (option Frame);
  frame_numbers : list Z;
  q_width : Z;
  q_height : Z;
  q_format : Z;
  fast_mode : bool;
  output_pattern : string;
  head : nat;
  tail : nat;
  count : nat;
  done : bool;
  frames_saved : Z;
  total_frames : Z
}.

(** The capacity is the macro [MAX_QUEUE_SIZE]; it is kept as a
    parameter [cap] so that the ring buffer can be studied at any size. *)
Variable cap : nat.

Definition queue_init (width height format : Z) (fm : bool)
    (pattern : string) (tot : Z) : FrameQueue :=
  mkQueue (replicate cap None) (replicate cap 0%Z) width height format fm
    pattern 0 0 0 false 0 tot.

Definition set_ring (q : FrameQueue) (fs : list (option Frame)) (ns : list Z)
    (h t c : nat) : FrameQueue :=
  mkQueue fs ns (q_width q) (q_height q) (q_format q) (fast_mode q)
    (output_pattern q) h t c (done q) (frames_saved q) (total_frames q).

(** [queue_push]: waits while [count >= MAX_QUEUE_SIZE]; otherwise
    stores the clone at [head] and advances [head] modulo the capacity. *)
Definition queue_push (q : FrameQueue) (f : Frame) (frame_number : Z)
    : option FrameQueue :=
  if (cap <=? count q)%nat then None
  else Some (set_ring q
               (<[head q := Some f]> (frames q))
               (<[head q := frame_number]> (frame_numbers q))
               ((head q + 1) mod cap) (tail q) (S (count q))).

Inductive pop_result :=
  | PopBlocked
  | PopDone
  | PopEntry (f : option Frame) (n : Z).

(** [queue_pop]: waits while [count == 0 && !done]; returns 0 when
    [count == 0 && done] (leaving the queue untouched); otherwise reads
    the slot at [tail] and advances [tail]. *)
Definition queue_pop (q : FrameQueue) : pop_result * FrameQueue :=
  match count q with
  | O => if done q then (PopDone, q) else (PopBlocked, q)
  | S c =>
      (PopEntry (default None (frames q !! tail q))
                (default 0%Z (frame_numbers q !! tail q)),
       set_ring q (frames q) (frame_numbers q) (head q)
                ((tail q + 1) mod cap) c)
  end.

Definition queue_set_done (q : FrameQueue) : FrameQueue :=
  mkQueue (frames q) (frame_numbers q) (q_width q) (q_height q) (q_format q)
    (fast_mode q) (output_pattern q) (head q) (tail q) (count q) true
    (frames_saved q) (total_frames q).

(** Linearised runs: each operation is one critical section. *)
Inductive op :=
  | OpPush (f : Frame) (n : Z)
  | OpPop
  | OpSetDone.

Definition entry : Type := (option Frame * Z)%type.

Fixpoint run (q : FrameQueue) (ops : list op)
    : option (FrameQueue * list entry) :=
  match ops with
  | [] => Some (q, [])
  | OpPush f n :: rest =>
      match queue_push q f n with
      | None => None
      | Some q' => run q' rest
      end
  | OpPop :: rest =>
      match queue_pop q with
      | (PopBlocked, _) => None
      | (PopDone, q') => run q' rest
      | (PopEntry f n, q') =>
          match run q' rest with
          | None => None
          | Some (q'', out) => Some (q'', (f, n) :: out)
          end
      end
  | OpSetDone :: rest => run (queue_set_done q) rest
  end.

Fixpoint pushed (ops : list op) : list entry :=
  match ops with
  | [] => []
  | OpPush f n :: rest => (Some f, n) :: pushed rest
  | _ :: rest => pushed rest
  end.

(** The entries the ring buffer holds, oldest first. *)
Definition slot (q : FrameQueue) (i : nat) : entry :=
  (default None (frames q !! i), default 0%Z (frame_numbers q !! i)).

Definition contents (q : FrameQueue) : list entry :=
  map (fun i => slot q ((tail q + i) mod cap)) (seq 0 (count q)).

Definition ring_inv (q : FrameQueue) : Prop :=
  length (frames q) = cap /\ length (frame_numbers q) = cap /\
  (tail q < cap)%nat /\ (count q <= cap)%nat /\
  head q = ((tail q + count q) mod cap)%nat.

End Queue.

Arguments frames {Frame}.
Arguments frame_numbers {Frame}.
Arguments q_width {Frame}.
Arguments q_height {Frame}.
Arguments q_format {Frame}.
Arguments fast_mode {Frame}.
Arguments output_pattern {Frame}.
Arguments head {Frame}.
Arguments tail {Frame}.
Arguments count {Frame}.
Arguments done {Frame}.
Arguments frames_saved {Frame}.
Arguments total_frames {Frame}.
Arguments mkQueue {Frame}.
Arguments set_ring {Frame}.
Arguments queue_init {Frame} cap.
Arguments queue_push {Frame} cap.
Arguments queue_pop {Frame} cap.
Arguments queue_set_done {Frame}.
Arguments run {Frame} cap.
Arguments pushed {Frame}.
Arguments contents {Frame} cap.
Arguments ring_inv {Frame} cap.
Arguments slot {Frame}.
Arguments PopBlocked {Frame}.
Arguments PopDone {Frame}.
Arguments PopEntry {Frame}.
Arguments OpPush {Frame}.
Arguments OpPop {Frame}.
Arguments OpSetDone {Frame}.

(* ================================================================== *)
(** ** Progress tracker (progress_init / progress_update)

    [int] arithmetic is [Z] wrapped to 32 bits (the signed overflow of
    [+=] would be undefined in C; the theorems below stay away from it).
    The [float]/[double] quantities of the renderer are modelled as
    exact rationals [Q]; elapsed wall time is an input. *)

Definition INT_MAX : Z := 2147483647.
Definition INT_MIN : Z := -2147483648.

(** a value representable in a C [int] *)
Definition int_range (z : Z) : bool := (INT_MIN <=? z) && (z <=? INT_MAX).

Definition wrap32 (z : Z) : Z := ((z + 2147483648) mod 4294967296) - 2147483648.

Record ProgressTracker := mkProgress {
  pt_total_frames : Z;
  frames_processed : Z;
  audio_packets : Z;
  pt_width : Z;
  last_display_time : Q
}.

Definition progress_init (total : Z) : ProgressTracker :=
  mkProgress total 0 0 50 0.

(** The values computed by one render. [eta] is [Some remaining_time]
    exactly when the branch assigning [remaining_time] is taken. *)
Record Render := mkRender {
  percentage : Q;
  frames_per_sec : Q;
  eta : option Q
}.

Definition render_values (pt : ProgressTracker) (elapsed : Q) : Render :=
  let tot := pt_total_frames pt in
  let proc := frames_processed pt in
  let p0 := (if (0 <? tot)%Z then inject_Z proc / inject_Z tot else 0)%Q in
  let p := (if Qlt_le_dec 1 p0 then 1 else p0)%Q in
  let fps := (if Qlt_le_dec (1 # 1000) elapsed then inject_Z proc / elapsed
              else 0)%Q in
  let rem := (if Qlt_le_dec (1 # 100) p then
                if Qlt_le_dec 0 fps then Some (inject_Z (tot - proc) / fps)
                else None
              else None)%Q in
  mkRender p fps rem.

(** [progress_update pt frames_inc audio_inc] at wall time [elapsed]:
    the new tracker and, when the 100ms throttle lets it through, the
    rendered values. *)
Definition progress_update (pt : ProgressTracker) (frames_inc audio_inc : Z)
    (elapsed : Q) : ProgressTracker * option Render :=
  let fp := wrap32 (frames_processed pt + frames_inc) in
  let ap := wrap32 (audio_packets pt + audio_inc) in
  let fp := if (pt_total_frames pt <? fp)%Z then pt_total_frames pt else fp in
  let pt1 := mkProgress (pt_total_frames pt) fp ap (pt_width pt)
               (last_display_time pt) in
  if Qlt_le_dec (elapsed - last_display_time pt)%Q (1 # 10)%Q then
    if (fp <? pt_total_frames pt)%Z then (pt1, None)
    else let pt2 := mkProgress (pt_total_frames pt) fp ap (pt_width pt) elapsed in
         (pt2, Some (render_values pt2 elapsed))
  else let pt2 := mkProgress (pt_total_frames pt) fp ap (pt_width pt) elapsed in
       (pt2, Some (render_values pt2 elapsed)).

(** An interleaving of calls, each one a critical section under
    [progress_mutex]: the increment and the wall time of each call. *)
Fixpoint progress_run (pt : ProgressTracker) (calls : list (Z * Q))
    : ProgressTracker :=
  match calls with
  | [] => pt
  | (k, t) :: rest => progress_run (fst (progress_update pt k 0 t)) rest
  end.

(** The sequence of [frames_processed] values after each call. *)
Fixpoint progress_trace (pt : ProgressTracker) (calls : list (Z * Q))
    : list Z :=
  match calls with
  | [] => []
  | (k, t) :: rest =>
      let pt' := fst (progress_update pt k 0 t) in
      frames_processed pt' :: progress_trace pt' rest
  end.

(* ================================================================== *)
(** ** Target selection (main, lines 885-931) *)

Record Config := mkConfig {
  cfg_frames : list Z;          (* config.frames[0..frame_count-1] *)
  frame_count : Z;
  cfg_start_frame : Z;
  cfg_end_frame : Z;
  step : Z;
  use_time : bool;
  use_time_range : bool;
  time_str : string;
  start_time : string;
  end_time : string;
  cfg_fast_mode : bool;
  cfg_output_pattern : string;
  extract_audio : bool;
  audio_only : bool;
  ytdl_download : bool
}.

(** [start_frame]/[end_frame] of main. [parse_time_to_frame] (a
    [double] computation from the fps) is an input [ttf]. *)
Definition frame_bounds (ttf : string -> Z) (cfg : Config) (total : Z) : Z * Z :=
  let '(s, e) :=
    if use_time cfg then let s := ttf (time_str cfg) in (s, s)
    else if use_time_range cfg then (ttf (start_time cfg), ttf (end_time cfg))
    else if (0 <? cfg_start_frame cfg) || (0 <? cfg_end_frame cfg) then
      ((if 0 <? cfg_start_frame cfg then cfg_start_frame cfg else 0),
       (if 0 <? cfg_end_frame cfg then cfg_end_frame cfg else total - 1))
    else (0, total - 1) in
  let s := if s <? 0 then 0 else s in
  let e := if total <=? e then total - 1 else e in
  (s, e).

(** The explicit branch: [for i < frame_count: if (frames[i] >= start_frame
    && frames[i] <= end_frame) frames_to_extract[extract_count++] = frames[i]]. *)
Fixpoint select_explicit (fs : list Z) (start_frame end_frame : Z) : list Z :=
  match fs with
  | [] => []
  | f :: rest =>
      if (start_frame <=? f) && (f <=? end_frame)
      then f :: select_explicit rest start_frame end_frame
      else select_explicit rest start_frame end_frame
  end.

(** The range branch: [for (f = start_frame; f <= end_frame; f += step)]. *)
Fixpoint range_loop (fuel : nat) (f end_frame stp : Z) : list Z :=
  match fuel with
  | O => []
  | S n => if f <=? end_frame then f :: range_loop n (f + stp) end_frame stp else []
  end.

(** [frames_to_extract]; [None] when the loop never ends ([step <= 0] on a
    non-empty range) or would overrun the 4096-entry array. *)
Definition frames_to_extract (cfg : Config) (start_frame end_frame : Z)
    : option (list Z) :=
  if 0 <? frame_count cfg then
    Some (select_explicit (firstn (Z.to_nat (frame_count cfg)) (cfg_frames cfg))
            start_frame end_frame)
  else if (start_frame <=? end_frame) && (step cfg <=? 0) then None
  else
    let l := range_loop (Z.to_nat (end_frame - start_frame + 1)) start_frame
               end_frame (step cfg) in
    if (4096 <? Z.of_nat (length l)) then None else Some l.

Definition frame_in_list (frame : Z) (l : list Z) (cnt : Z) : bool :=
  existsb (fun x => x =? frame) (firstn (Z.to_nat cnt) l).

(* ================================================================== *)
(** ** Producer loop and main (lines 849-1038) *)

Section Main.

Variable Frame : Type.

(** A packet read by [av_read_frame]: its stream and the frames that
    [avcodec_receive_frame] returns after [avcodec_send_packet] on it
    (none when decoding the packet fails). *)
Record Packet := mkPacket {
  stream_index : Z;
  decoded : list Frame
}.

Inductive pevent :=
  | EvReceive (n : Z)              (* a frame received as [current_frame = n] *)
  | EvPush (f : Frame) (n : Z).    (* queue_push(&frame_queue, frame, n) *)

Section Producer.

Variables (start_frame end_frame frame_count : Z)
          (targets : list Z) (extract_count video_stream_idx : Z).

(** The enqueue test of the inner loop. *)
Definition producer_match (current_frame : Z) : bool :=
  (start_frame <=? current_frame) && (current_frame <=? end_frame) &&
  ((frame_count =? 0) || frame_in_list current_frame targets extract_count).

(** [while (avcodec_receive_frame(codec_ctx, frame) == 0) { ... }] *)
Fixpoint receive_loop (fs : list Frame) (current_frame frames_queued : Z)
    : list pevent * Z * Z :=
  match fs with
  | [] => ([], current_frame, frames_queued)
  | f :: rest =>
      let m := producer_match current_frame in
      let evs := EvReceive current_frame ::
                 (if m then [EvPush f current_frame] else []) in
      let q1 := if m then frames_queued + 1 else frames_queued in
      let c1 := current_frame + 1 in
      if extract_count <=? q1 then (evs, c1, q1)
      else let '(evs2, c2, q2) := receive_loop rest c1 q1 in (evs ++ evs2, c2, q2)
  end.

(** [while (av_read_frame(fmt_ctx, &packet) >= 0 && frames_queued <
    extract_count) { ... if (frames_queued >= extract_count) break; }];
    the end of the list is [av_read_frame < 0]. *)
Fixpoint producer_loop (pkts : list Packet) (current_frame frames_queued : Z)
    : list pevent * Z * Z :=
  match pkts with
  | [] => ([], current_frame, frames_queued)
  | p :: rest =>
      if frames_queued <? extract_count then
        let '(evs, c1, q1) :=
          if stream_index p =? video_stream_idx
          then receive_loop (decoded p) current_frame frames_queued
          else ([], current_frame, frames_queued) in
        if extract_count <=? q1 then (evs, c1, q1)
        else let '(evs2, c2, q2) := producer_loop rest c1 q1 in
             (evs ++ evs2, c2, q2)
      else ([], current_frame, frames_queued)
  end.

End Producer.

(** The frames of the chosen video stream, in decode order. *)
Definition video_frames (vid : Z) (pkts : list Packet) : list Frame :=
  concat (map decoded (List.filter (fun p => stream_index p =? vid) pkts)).

Inductive mevent :=
  | MAudioOnly
  | MOpenCodec
  | MSeek
  | MSpawnSaver (i : nat)
  | MSpawnAudio
  | MProducer (e : pevent)
  | MSetDone
  | MJoinSaver (i : nat)
  | MJoinAudio
  | MFinish.

(** What the external collaborators (downloader, container and codec
    libraries) answer during one run. *)
Record Env := mkEnv {
  ytdl_ok : bool;
  input_given : bool;
  open_ok : bool;
  video_stream_idx : Z;       (* -1 when no video stream *)
  nb_frames : Z;
  duration_frames : option Z; (* ceil(duration * fps) when duration > 0 *)
  codec_ok : bool;
  packets : list Packet;
  ttf : string -> Z           (* parse_time_to_frame(_, fps) *)
}.

Definition total_of (env : Env) : option Z :=
  if nb_frames env <=? 0 then duration_frames env else Some (nb_frames env).

(** [main] from the frame bounds on; [None] when [frames_to_extract]
    does not terminate or overruns its array. *)
Definition main_extract (env : Env) (cfg : Config) (total : Z)
    : option (list mevent * Z) :=
  let '(s, e) := frame_bounds (ttf env) cfg total in
  match frames_to_extract cfg s e with
  | None => None
  | Some fte =>
      let ec := Z.of_nat (length fte) in
      if ec =? 0 then Some ([], 1)
      else if negb (codec_ok env) then Some ([MOpenCodec], 1)
      else
        let seek := if 0 <? s then [MSeek] else [] in
        let spawns := map MSpawnSaver (seq 0 NUM_SAVER_THREADS) ++
                      (if extract_audio cfg then [MSpawnAudio] else []) in
        let '(pevs, _, _) :=
          producer_loop s e (frame_count cfg) fte ec (video_stream_idx env)
            (packets env) 0 0 in
        let joins := map MJoinSaver (seq 0 NUM_SAVER_THREADS) ++
                     (if extract_audio cfg then [MJoinAudio] else []) in
        Some (MOpenCodec :: seek ++ spawns ++ map MProducer pevs ++ [MSetDone]
              ++ joins ++ [MFinish], 0)
  end.

Definition main (env : Env) (cfg : Config) : option (list mevent * Z) :=
  if ytdl_download cfg && negb (ytdl_ok env) then Some ([], 1)
  else if negb (input_given env) then Some ([], 1)
  else if audio_only cfg then Some ([MAudioOnly], 0)
  else if negb (open_ok env) then Some ([], 1)
  else if video_stream_idx env =? -1 then Some ([], 1)
  else match total_of env with
       | None => Some ([], 1)
       | Some total => main_extract env cfg total
       end.

End Main.

Arguments EvReceive {Frame}.
Arguments EvPush {Frame}.
Arguments MAudioOnly {Frame}.
Arguments MOpenCodec {Frame}.
Arguments MSeek {Frame}.
Arguments MSpawnSaver {Frame}.
Arguments MSpawnAudio {Frame}.
Arguments MProducer {Frame}.
Arguments MSetDone {Frame}.
Arguments MJoinSaver {Frame}.
Arguments MJoinAudio {Frame}.
Arguments MFinish {Frame}.
Arguments mkPacket {Frame}.
Arguments producer_match : clear implicits.
Arguments receive_loop {Frame}.
Arguments producer_loop {Frame}.
Arguments video_frames {Frame}.
Arguments main {Frame}.
Arguments main_extract {Frame}.
Arguments total_of {Frame}.
Arguments mkEnv {Frame}.
Arguments stream_index {Frame}.
Arguments decoded {Frame}.
Arguments ytdl_ok {Frame}.
Arguments input_given {Frame}.
Arguments open_ok {Frame}.
Arguments video_stream_idx {Frame}.
Arguments nb_frames {Frame}.
Arguments duration_frames {Frame}.
Arguments codec_ok {Frame}.
Arguments packets {Frame}.
Arguments ttf {Frame}.

(* ================================================================== *)
(** ** Worker pool (frame_saver_thread) running against the producer

    A state of the whole pipeline: the queue, the pushes the producer
    still has to make (the [EvPush] events of [producer_loop], in order),
    whether it has called [queue_set_done], each saver thread, and the
    entries persisted so far, in completion order. *)

Section Pool.

Variable Frame : Type.
Variable cap : nat.

Inductive wstate :=
  | WRunning                   (* about to call queue_pop *)
  | WHolding (e : entry Frame)  (* popped, converting and writing *)
  | WExited.                   (* queue_pop returned 0 *)

Record Sys := mkSys {
  sq : FrameQueue Frame;
  prod_pending : list (Frame * Z);
  prod_finished : bool;
  workers : list wstate;
  saved : list (entry Frame)
}.

(** One scheduling decision: which thread runs its next critical
    section (or its conversion and write). *)
Inductive sched :=
  | SProducer
  | SWorker (i : nat).

Definition sys_step (s : Sys) (c : sched) : option Sys :=
  match c with
  | SProducer =>
      match prod_pending s with
      | (f, n) :: rest =>
          match queue_push cap (sq s) f n with
          | Some q' => Some (mkSys q' rest false (workers s) (saved s))
          | None => None
          end
      | [] =>
          if prod_finished s then None
          else Some (mkSys (queue_set_done (sq s)) [] true (workers s) (saved s))
      end
  | SWorker i =>
      match workers s !! i with
      | Some WRunning =>
          match queue_pop cap (sq s) with
          | (PopEntry f n, q') =>
              Some (mkSys q' (prod_pending s) (prod_finished s)
                      (<[i := WHolding (f, n)]> (workers s)) (saved s))
          | (PopDone, _) =>
              Some (mkSys (sq s) (prod_pending s) (prod_finished s)
                      (<[i := WExited]> (workers s)) (saved s))
          | (PopBlocked, _) => None
          end
      | Some (WHolding e) =>
          Some (mkSys (sq s) (prod_pending s) (prod_finished s)
                  (<[i := WRunning]> (workers s)) (saved s ++ [e]))
      | _ => None
      end
  end.

Fixpoint sys_run (s : Sys) (l : list sched) : option Sys :=
  match l with
  | [] => Some s
  | c :: rest =>
      match sys_step s c with
      | Some s' => sys_run s' rest
      | None => None
      end
  end.

Definition sys_init (q : FrameQueue Frame) (pushes : list (Frame * Z))
    (nworkers : nat) : Sys :=
  mkSys q pushes false (replicate nworkers WRunning) [].

Definition all_exited (s : Sys) : Prop := Forall (fun w => w = WExited) (workers s).

End Pool.

Arguments WRunning {Frame}.
Arguments WHolding {Frame}.
Arguments WExited {Frame}.
Arguments sys_step {Frame} cap.
Arguments sys_run {Frame} cap.
Arguments sys_init {Frame}.
Arguments all_exited {Frame}.
Arguments mkSys {Frame}.
Arguments sq {Frame}.
Arguments prod_pending {Frame}.
Arguments prod_finished {Frame}.
Arguments workers {Frame}.
Arguments saved {Frame}.

(** The pushes of a producer trace. *)
Definition pushes_of {Frame} (evs : list (pevent Frame)) : list (Frame * Z) :=
  omap (fun e => match e with EvPush f n => Some (f, n) | _ => None end) evs.

Definition receives_of {Frame} (evs : list (pevent Frame)) : list Z :=
  omap (fun e => match e with EvReceive n => Some n | _ => None end) evs.

Definition producer_events {Frame} (evs : list (mevent Frame)) : list (pevent Frame) :=
  omap (fun e => match e with MProducer p => Some p | _ => None end) evs.

(** What the workers hold between [queue_pop] and the write. *)
Definition hold1 {Frame} (w : wstate Frame) : list (entry Frame) :=
  match w with WHolding e => [e] | _ => [] end.

Definition held {Frame} (ws : list (wstate Frame)) : list (entry Frame) :=
  concat (map hold1 ws).

Definition as_entries {Frame} (P : list (Frame * Z)) : list (entry Frame) :=
  map (fun fn => (Some (fst fn), snd fn)) P.

(** The invariant of the pipeline, with [P] the producer's pushes. *)
Definition pool_inv {Frame} (cap : nat) (P : list (Frame * Z)) (nw : nat) (st : Sys Frame) : Prop :=
  ring_inv cap (sq st) /\
  (exists popped,
     as_entries P = popped ++ contents cap (sq st) ++ as_entries (prod_pending st) /\
     popped ≡ₚ saved st ++ held (workers st)) /\
  (done (sq st) = true -> prod_pending st = []) /\
  (forall j, workers st !! j = Some WExited ->
     done (sq st) = true /\ count (sq st) = 0%nat) /\
  length (workers st) = nw.

(* ================================================================== *)
(** ** Output file name (frame_saver_thread, lines 339-355)

    [snprintf(filename, 512, q->output_pattern, frame_number)] with the
    conversions an output template uses: [%d], [%Nd], [%0Nd] (one-digit
    width) and [%%]; any other character is copied. *)

Local Open Scope string_scope.

Fixpoint pos_digits (fuel : nat) (n : N) (acc : string) : string :=
  match fuel with
  | O => acc
  | S f =>
      let acc' := String (ascii_of_N (48 + N.modulo n 10)) acc in
      if (n <? 10)%N then acc' else pos_digits f (N.div n 10) acc'
  end.

(** [%d] of an [int]. *)
Definition dec (n : Z) : string :=
  let a := Z.to_N (Z.abs n) in
  let ds := pos_digits (S (N.size_nat a)) a "" in
  if (n <? 0)%Z then "-" ++ ds else ds.

Fixpoint spaces (c : ascii) (k : nat) : string :=
  match k with O => "" | S k' => String c (spaces c k') end.

(** [%<w>d] / [%0<w>d]: right-justified in [w] columns, zeros after the
    sign when [zero] is set. *)
Definition dec_width (zero : bool) (w : nat) (n : Z) : string :=
  let a := Z.to_N (Z.abs n) in
  let ds := pos_digits (S (N.size_nat a)) a "" in
  let sign := if (n <? 0)%Z then "-" else "" in
  let pad := (w - (String.length sign + String.length ds))%nat in
  if zero then sign ++ spaces "0" pad ++ ds else spaces " " pad ++ sign ++ ds.

Definition digit_val (c : ascii) : option nat :=
  let k := nat_of_ascii c in
  if (48 <=? k)%nat && (k <=? 57)%nat then Some (k - 48)%nat else None.

Fixpoint format_int (pat : string) (n : Z) : string :=
  match pat with
  | EmptyString => EmptyString
  | String c rest =>
      if ascii_dec c "%" then
        match rest with
        | String "%" r => String "%" (format_int r n)
        | String "d" r => dec n ++ format_int r n
        | String "0" (String w (String "d" r)) =>
            match digit_val w with
            | Some k => dec_width true k n ++ format_int r n
            | None => String c (format_int rest n)
            end
        | String w (String "d" r) =>
            match digit_val w with
            | Some k => dec_width false k n ++ format_int r n
            | None => String c (format_int rest n)
            end
        | _ => String c (format_int rest n)
        end
      else String c (format_int rest n)
  end.

(** [snprintf] into a [char[512]]: at most 511 characters are kept. *)
Definition snprintf512 (s : string) : string := substring 0 511 s.

(** [strstr(s, sub) != NULL]. *)
Fixpoint strstr (s sub : string) : bool :=
  String.prefix sub s ||
  match s with
  | EmptyString => false
  | String _ s' => strstr s' sub
  end.

(** The name the worker writes for [frame_number]. *)
Definition saver_filename (fast : bool) (pattern : string) (frame_number : Z)
    : string :=
  let filename := snprintf512 (format_int pattern frame_number) in
  let ext := if fast then ".yuv" else ".png" in
  if strstr filename ext then filename
  else snprintf512 (filename ++ ext).

(* ================================================================== *)
(** ** parse_frames_string (lines 450-462) *)

(** [strtok(_, ",")] repeated to the end: the maximal non-empty runs of
    characters other than [',']. *)
Fixpoint tok_go (s : string) (cur : list ascii) : list string :=
  match s with
  | EmptyString =>
      match cur with [] => [] | _ => [string_of_list_ascii (rev cur)] end
  | String c rest =>
      if ascii_dec c "," then
        match cur with
        | [] => tok_go rest []
        | _ => string_of_list_ascii (rev cur) :: tok_go rest []
        end
      else tok_go rest (c :: cur)
  end.

Definition strtok_commas (s : string) : list string := tok_go s [].

Definition is_space (c : ascii) : bool :=
  let k := nat_of_ascii c in (k =? 32)%nat || ((9 <=? k)%nat && (k <=? 13)%nat).

Fixpoint atoi_digits (s : string) (acc : Z) : Z :=
  match s with
  | String c r =>
      match digit_val c with
      | Some d => atoi_digits r (acc * 10 + Z.of_nat d)
      | None => acc
      end
  | EmptyString => acc
  end.

Fixpoint skip_spaces (s : string) : string :=
  match s with
  | String c r => if is_space c then skip_spaces r else s
  | EmptyString => s
  end.

(** [atoi]: blanks, an optional sign, decimal digits (the value is kept
    exact; an [int] overflow would be undefined in C). *)
Definition atoi (s : string) : Z :=
  match skip_spaces s with
  | String "-" r => - atoi_digits r 0
  | String "+" r => atoi_digits r 0
  | s' => atoi_digits s' 0
  end.

Record ParseResult := mkParse {
  pf_frames : list Z;     (* the caller's int[1024] after the call *)
  pf_count : Z;           (* *count *)
  pf_written : list nat;  (* the indices of frames[] written, in order *)
  pf_ret : Z              (* the return value *)
}.

Fixpoint pf_loop (toks : list string) (frames : list Z) (cnt : nat)
    (written : list nat) : list Z * nat * list nat :=
  match toks with
  | [] => (frames, cnt, written)
  | t :: rest =>
      if (cnt <? 1024)%nat
      then pf_loop rest (<[cnt := atoi t]> frames) (S cnt) (written ++ [cnt])
      else (frames, cnt, written)
  end.

(** [strcpy(temp, str)] into [char temp[1024]] needs [strlen(str) < 1024];
    a longer argument overruns [temp] (undefined behaviour: [None]). *)
Definition parse_frames_string (str : string) (frames : list Z)
    : option ParseResult :=
  if (1024 <=? String.length str)%nat then None
  else
    let '(fs, cnt, written) := pf_loop (strtok_commas str) frames 0 [] in
    Some (mkParse fs (Z.of_nat cnt) written (if (0 <? cnt)%nat then 1 else 0)).

(** The comma-separated fields of a string, empty ones included: the
    reference split against which [strtok_commas] is described. *)
Fixpoint comma_fields (s : string) : list string :=
  match s with
  | EmptyString => [EmptyString]
  | String c r =>
      if ascii_dec c "," then EmptyString :: comma_fields r
      else match comma_fields r with
           | f :: fs => String c f :: fs
           | [] => [String c EmptyString]
           end
  end.

Definition nonempty_field (t : string) : bool :=
  match t with EmptyString => false | _ => true end.

Local Close Scope string_scope.

(* ================================================================== *)
(** ** progress_finish (lines 155-170) and the bar of progress_update
    (lines 116-121) *)

(** [progress_update(pt, pt->total_frames - pt->frames_processed, 0)];
    the rest of [progress_finish] only prints. *)
Definition progress_finish (pt : ProgressTracker) (elapsed : Q)
    : ProgressTracker * option Render :=
  progress_update pt (wrap32 (pt_total_frames pt - frames_processed pt)) 0 elapsed.

(** [(int)] of a [double]: truncation towards zero. *)
Definition trunc_Q (x : Q) : Z :=
  if Qle_bool 0 x then Qfloor x else Qceiling x.

(** [int pos = pt->width * percentage;] *)
Definition bar_pos (width : Z) (p : Q) : Z := trunc_Q (inject_Z width * p).

(** [for (i = 0; i < width; i++) { if (i < pos) "=" else if (i == pos) ">"
    else " " }], from column [i] on, [k] columns left. *)
Fixpoint bar_from (i : Z) (k : nat) (pos : Z) : string :=
  match k with
  | O => ""
  | S k' =>
      String (if Z.ltb i pos then "=" else if Z.eqb i pos then ">" else " ")
        (bar_from (i + 1) k' pos)
  end.

Definition progress_bar (width pos : Z) : string :=
  bar_from 0 (Z.to_nat width) pos.

Local Close Scope string_scope.

(* ================================================================== *)
(** ** save_yuv_frame (lines 242-260) *)

(** [0, 1, ..., n-1] for a loop [for (i = 0; i < n; i++)]. *)
Definition zseq (n : Z) : list Z := map Z.of_nat (seq 0 (Z.to_nat n)).

Inductive yuv_outcome (A : Type) :=
  | YuvNoFile                 (* fopen failed: nothing written *)
  | YuvFile (bytes : list A)  (* the bytes of the file *)
  | YuvUndefined.             (* fwrite with a negative count *)
Arguments YuvNoFile {A}.
Arguments YuvFile {A}.
Arguments YuvUndefined {A}.

(** The [fwrite]s of one plane: [for (y = 0; y < rows; y++)
    fwrite(data + y * linesize, 1, cols, fp)]; a negative [cols] is
    converted to a huge [size_t]. *)
Definition plane_bytes {A} (data : Z -> A) (linesize rows cols : Z)
    : option (list A) :=
  if (0 <? rows) && (cols <? 0) then None
  else Some (concat (map (fun y => map (fun x => data (y * linesize + x)) (zseq cols))
                        (zseq rows))).

(** [data k] is the plane [frame->data[k]] (bytes from its start),
    [linesize k] is [frame->linesize[k]]; [height/2] and [width/2] are C
    divisions. *)
Definition save_yuv_frame {A} (fopen_ok : bool) (data : nat -> Z -> A)
    (linesize : nat -> Z) (width height : Z) : yuv_outcome A :=
  if negb fopen_ok then YuvNoFile
  else
    match plane_bytes (data 0%nat) (linesize 0%nat) height width,
          plane_bytes (data 1%nat) (linesize 1%nat) (Z.quot height 2) (Z.quot width 2),
          plane_bytes (data 2%nat) (linesize 2%nat) (Z.quot height 2) (Z.quot width 2) with
    | Some y, Some u, Some v => YuvFile (y ++ u ++ v)
    | _, _, _ => YuvUndefined
    end.

(* ================================================================== *)
(** ** The command line of main (lines 386-411, 730-812) *)

Module Args.

Local Open Scope string_scope.

(** The C [Config] struct, every field; [frames] is the [int[1024]]. *)
Record Config := mkConfig {
  input : string;
  output_pattern : string;
  audio_output : string;
  frames : list Z;
  frame_count : Z;
  start_frame : Z;
  end_frame : Z;
  step : Z;
  format : Z;
  fast_mode : Z;
  extract_audio : Z;
  audio_only : Z;
  audio_format : Z;
  audio_bitrate : Z;
  use_time : Z;
  use_time_range : Z;
  time_str : string;
  start_time : string;
  end_time : string;
  ytdl_url : string;
  ytdl_format : string;
  ytdl_download : Z
}.

(** [config.<field> = v], one function per field assigned by [main]. *)
Definition set_input (v : string) (c : Config) : Config :=
  mkConfig v (output_pattern c) (audio_output c) (frames c) (frame_count c) (start_frame c) (end_frame c) (step c) (format c) (fast_mode c) (extract_audio c) (audio_only c) (audio_format c) (audio_bitrate c) (use_time c) (use_time_range c) (time_str c) (start_time c) (end_time c) (ytdl_url c) (ytdl_format c) (ytdl_download c).

Definition set_output_pattern (v : string) (c : Config) : Config :=
  mkConfig (input c) v (audio_output c) (frames c) (frame_count c) (start_frame c) (end_frame c) (step c) (format c) (fast_mode c) (extract_audio c) (audio_only c) (audio_format c) (audio_bitrate c) (use_time c) (use_time_range c) (time_str c) (start_time c) (end_time c) (ytdl_url c) (ytdl_format c) (ytdl_download c).

Definition set_audio_output (v : string) (c : Config) : Config :=
  mkConfig (input c) (output_pattern c) v (frames c) (frame_count c) (start_frame c) (end_frame c) (step c) (format c) (fast_mode c) (extract_audio c) (audio_only c) (audio_format c) (audio_bitrate c) (use_time c) (use_time_range c) (time_str c) (start_time c) (end_time c) (ytdl_url c) (ytdl_format c) (ytdl_download c).

Definition set_frames (v : list Z) (c : Config) : Config :=
  mkConfig (input c) (output_pattern c) (audio_output c) v (frame_count c) (start_frame c) (end_frame c) (step c) (format c) (fast_mode c) (extract_audio c) (audio_only c) (audio_format c) (audio_bitrate c) (use_time c) (use_time_range c) (time_str c) (start_time c) (end_time c) (ytdl_url c) (ytdl_format c) (ytdl_download c).

Definition set_frame_count (v : Z) (c : Config) : Config :=
  mkConfig (input c) (output_pattern c) (audio_output c) (frames c) v (start_frame c) (end_frame c) (step c) (format c) (fast_mode c) (extract_audio c) (audio_only c) (audio_format c) (audio_bitrate c) (use_time c) (use_time_range c) (time_str c) (start_time c) (end_time c) (ytdl_url c) (ytdl_format c) (ytdl_download c).

Definition set_start_frame (v : Z) (c : Config) : Config :=
  mkConfig (input c) (output_pattern c) (audio_output c) (frames c) (frame_count c) v (end_frame c) (step c) (format c) (fast_mode c) (extract_audio c) (audio_only c) (audio_format c) (audio_bitrate c) (use_time c) (use_time_range c) (time_str c) (start_time c) (end_time c) (ytdl_url c) (ytdl_format c) (ytdl_download c).

Definition set_end_frame (v : Z) (c : Config) : Config :=
  mkConfig (input c) (output_pattern c) (audio_output c) (frames c) (frame_count c) (start_frame c) v (step c) (format c) (fast_mode c) (extract_audio c) (audio_only c) (audio_format c) (audio_bitrate c) (use_time c) (use_time_range c) (time_str c) (start_time c) (end_time c) (ytdl_url c) (ytdl_format c) (ytdl_download c).

Definition set_step (v : Z) (c : Config) : Config :=
  mkConfig (input c) (output_pattern c) (audio_output c) (frames c) (frame_count c) (start_frame c) (end_frame c) v (format c) (fast_mode c) (extract_audio c) (audio_only c) (audio_format c) (audio_bitrate c) (use_time c) (use_time_range c) (time_str c) (start_time c) (end_time c) (ytdl_url c) (ytdl_format c) (ytdl_download c).

Definition set_fast_mode (v : Z) (c : Config) : Config :=
  mkConfig (input c) (output_pattern c) (audio_output c) (frames c) (frame_count c) (start_frame c) (end_frame c) (step c) (format c) v (extract_audio c) (audio_only c) (audio_format c) (audio_bitrate c) (use_time c) (use_time_range c) (time_str c) (start_time c) (end_time c) (ytdl_url c) (ytdl_format c) (ytdl_download c).

Definition set_extract_audio (v : Z) (c : Config) : Config :=
  mkConfig (input c) (output_pattern c) (audio_output c) (frames c) (frame_count c) (start_frame c) (end_frame c) (step c) (format c) (fast_mode c) v (audio_only c) (audio_format c) (audio_bitrate c) (use_time c) (use_time_range c) (time_str c) (start_time c) (end_time c) (ytdl_url c) (ytdl_format c) (ytdl_download c).

Definition set_audio_only (v : Z) (c : Config) : Config :=
  mkConfig (input c) (output_pattern c) (audio_output c) (frames c) (frame_count c) (start_frame c) (end_frame c) (step c) (format c) (fast_mode c) (extract_audio c) v (audio_format c) (audio_bitrate c) (use_time c) (use_time_range c) (time_str c) (start_time c) (end_time c) (ytdl_url c) (ytdl_format c) (ytdl_download c).

Definition set_audio_format (v : Z) (c : Config) : Config :=
  mkConfig (input c) (output_pattern c) (audio_output c) (frames c) (frame_count c) (start_frame c) (end_frame c) (step c) (format c) (fast_mode c) (extract_audio c) (audio_only c) v (audio_bitrate c) (use_time c) (use_time_range c) (time_str c) (start_time c) (end_time c) (ytdl_url c) (ytdl_format c) (ytdl_download c).

Definition set_audio_bitrate (v : Z) (c : Config) : Config :=
  mkConfig (input c) (output_pattern c) (audio_output c) (frames c) (frame_count c) (start_frame c) (end_frame c) (step c) (format c) (fast_mode c) (extract_audio c) (audio_only c) (audio_format c) v (use_time c) (use_time_range c) (time_str c) (start_time c) (end_time c) (ytdl_url c) (ytdl_format c) (ytdl_download c).

Definition set_use_time (v : Z) (c : Config) : Config :=
  mkConfig (input c) (output_pattern c) (audio_output c) (frames c) (frame_count c) (start_frame c) (end_frame c) (step c) (format c) (fast_mode c) (extract_audio c) (audio_only c) (audio_format c) (audio_bitrate c) v (use_time_range c) (time_str c) (start_time c) (end_time c) (ytdl_url c) (ytdl_format c) (ytdl_download c).

Definition set_use_time_range (v : Z) (c : Config) : Config :=
  mkConfig (input c) (output_pattern c) (audio_output c) (frames c) (frame_count c) (start_frame c) (end_frame c) (step c) (format c) (fast_mode c) (extract_audio c) (audio_only c) (audio_format c) (audio_bitrate c) (use_time c) v (time_str c) (start_time c) (end_time c) (ytdl_url c) (ytdl_format c) (ytdl_download c).

Definition set_time_str (v : string) (c : Config) : Config :=
  mkConfig (input c) (output_pattern c) (audio_output c) (frames c) (frame_count c) (start_frame c) (end_frame c) (step c) (format c) (fast_mode c) (extract_audio c) (audio_only c) (audio_format c) (audio_bitrate c) (use_time c) (use_time_range c) v (start_time c) (end_time c) (ytdl_url c) (ytdl_format c) (ytdl_download c).

Definition set_start_time (v : string) (c : Config) : Config :=
  mkConfig (input c) (output_pattern c) (audio_output c) (frames c) (frame_count c) (start_frame c) (end_frame c) (step c) (format c) (fast_mode c) (extract_audio c) (audio_only c) (audio_format c) (audio_bitrate c) (use_time c) (use_time_range c) (time_str c) v (end_time c) (ytdl_url c) (ytdl_format c) (ytdl_download c).

Definition set_end_time (v : string) (c : Config) : Config :=
  mkConfig (input c) (output_pattern c) (audio_output c) (frames c) (frame_count c) (start_frame c) (end_frame c) (step c) (format c) (fast_mode c) (extract_audio c) (audio_only c) (audio_format c) (audio_bitrate c) (use_time c) (use_time_range c) (time_str c) (start_time c) v (ytdl_url c) (ytdl_format c) (ytdl_download c).

Definition set_ytdl_url (v : string) (c : Config) : Config :=
  mkConfig (input c) (output_pattern c) (audio_output c) (frames c) (frame_count c) (start_frame c) (end_frame c) (step c) (format c) (fast_mode c) (extract_audio c) (audio_only c) (audio_format c) (audio_bitrate c) (use_time c) (use_time_range c) (time_str c) (start_time c) (end_time c) v (ytdl_format c) (ytdl_download c).

Definition set_ytdl_format (v : string) (c : Config) : Config :=
  mkConfig (input c) (output_pattern c) (audio_output c) (frames c) (frame_count c) (start_frame c) (end_frame c) (step c) (format c) (fast_mode c) (extract_audio c) (audio_only c) (audio_format c) (audio_bitrate c) (use_time c) (use_time_range c) (time_str c) (start_time c) (end_time c) (ytdl_url c) v (ytdl_download c).

Definition set_ytdl_download (v : Z) (c : Config) : Config :=
  mkConfig (input c) (output_pattern c) (audio_output c) (frames c) (frame_count c) (start_frame c) (end_frame c) (step c) (format c) (fast_mode c) (extract_audio c) (audio_only c) (audio_format c) (audio_bitrate c) (use_time c) (use_time_range c) (time_str c) (start_time c) (end_time c) (ytdl_url c) (ytdl_format c) v.
(** [memset(&config, 0, ...)] followed by the defaults of [main]. *)
Definition init_config : Config :=
  mkConfig "" "frame_%d.png" "audio" (repeat 0 1024) 0 0 0 1 0 0 0 0 0 128 0 0
    "" "" "" "" "" 0.

(** [strcpy] into a [char[n]] field: the argument and its terminator
    must fit, a longer one overruns the struct ([None]). *)
Definition strcpy_into (n : nat) (set : string -> Config -> Config) (v : string)
    (c : Config) : option Config :=
  if (String.length v <? n)%nat then Some (set v c) else None.

Inductive ArgsOutcome :=
  | ArgsHelp                  (* print_usage(); return 0; *)
  | ArgsDone (c : Config).    (* the loop ran to [argc] *)

(** The argument loop, over [argv[1..argc-1]]. An option whose values
    are missing ([i + 1 < argc] false) matches no branch and is skipped
    like any unknown word. *)
Fixpoint parse_args (args : list string) (c : Config) : option ArgsOutcome :=
  match args with
  | [] => Some (ArgsDone c)
  | a :: rest =>
      if String.eqb a "-input" then
        match rest with
        | v :: r => match strcpy_into 512 set_input v c with
                    | Some c' => parse_args r c' | None => None end
        | [] => parse_args rest c
        end
      else if String.eqb a "-output" then
        match rest with
        | v :: r => match strcpy_into 512 set_output_pattern v c with
                    | Some c' => parse_args r c' | None => None end
        | [] => parse_args rest c
        end
      else if String.eqb a "-output-audio" then
        match rest with
        | v :: r => match strcpy_into 512 set_audio_output v c with
                    | Some c' => parse_args r c' | None => None end
        | [] => parse_args rest c
        end
      else if String.eqb a "-audio-format" then
        match rest with
        | v :: r =>
            let fmt := if String.eqb v "mp3" then 0
                       else if String.eqb v "aac" then 1
                       else if String.eqb v "wav" then 2
                       else if String.eqb v "ogg" then 3
                       else audio_format c in
            parse_args r (set_audio_format fmt c)
        | [] => parse_args rest c
        end
      else if String.eqb a "-audio-bitrate" then
        match rest with
        | v :: r =>
            let b := atoi v in
            let b := if Z.ltb b 32 then 32 else b in
            let b := if Z.ltb 320 b then 320 else b in
            parse_args r (set_audio_bitrate b c)
        | [] => parse_args rest c
        end
      else if String.eqb a "-frame" then
        match rest with
        | v :: r =>
            parse_args r (set_frame_count 1 (set_frames (<[0%nat := atoi v]> (frames c)) c))
        | [] => parse_args rest c
        end
      else if String.eqb a "-frames" then
        match rest with
        | v :: r =>
            match parse_frames_string v (frames c) with
            | Some p => parse_args r (set_frame_count (pf_count p) (set_frames (pf_frames p) c))
            | None => None
            end
        | [] => parse_args rest c
        end
      else if String.eqb a "-range" then
        match rest with
        | v1 :: v2 :: r =>
            parse_args r (set_end_frame (atoi v2) (set_start_frame (atoi v1) c))
        | _ => parse_args rest c
        end
      else if String.eqb a "-step" then
        match rest with
        | v :: r => parse_args r (set_step (atoi v) c)
        | [] => parse_args rest c
        end
      else if String.eqb a "-time" then
        match rest with
        | v :: r => match strcpy_into 64 set_time_str v c with
                    | Some c' => parse_args r (set_use_time 1 c') | None => None end
        | [] => parse_args rest c
        end
      else if String.eqb a "-time-range" then
        match rest with
        | v1 :: v2 :: r =>
            match strcpy_into 64 set_start_time v1 c with
            | Some c1 =>
                match strcpy_into 64 set_end_time v2 c1 with
                | Some c2 => parse_args r (set_use_time_range 1 c2)
                | None => None
                end
            | None => None
            end
        | _ => parse_args rest c
        end
      else if String.eqb a "-fast" then parse_args rest (set_fast_mode 1 c)
      else if String.eqb a "-extract-audio" then parse_args rest (set_extract_audio 1 c)
      else if String.eqb a "-audio-only" then parse_args rest (set_audio_only 1 c)
      else if String.eqb a "-ytdl" then
        match rest with
        | v :: r => match strcpy_into 1024 set_ytdl_url v c with
                    | Some c' => parse_args r (set_ytdl_download 1 c') | None => None end
        | [] => parse_args rest c
        end
      else if String.eqb a "-ytdl-format" then
        match rest with
        | v :: r => match strcpy_into 64 set_ytdl_format v c with
                    | Some c' => parse_args r c' | None => None end
        | [] => parse_args rest c
        end
      else if String.eqb a "-help" || String.eqb a "--help" then Some ArgsHelp
      else parse_args rest c
  end.

(** The bounds the argument loop keeps. *)
Definition args_inv (c : Config) : Prop :=
  32 <= audio_bitrate c <= 320 /\ 0 <= audio_format c <= 3 /\
  0 <= frame_count c <= 1024 /\ length (frames c) = 1024%nat.

End Args.

(* ================================================================== *)
(** ** Audio bitrate option (lines 635-640) *)

Local Open Scope string_scope.

(** [snprintf(option, 64, "-b:a %dk", bitrate)] into the static buffer. *)
Definition get_bitrate_option (format bitrate : Z) : string :=
  let bitrate := if Z.leb bitrate 0 then 128 else bitrate in
  substring 0 63 ("-b:a " ++ dec bitrate ++ "k").

Local Close Scope string_scope.

(* ================================================================== *)
(** ** Time strings (lines 464-480, 677-693) *)

Local Open Scope string_scope.

(** The directives of the [sscanf] formats of the program: [%d], an
    ordinary character, [%lf]. *)
Inductive scan_dir := SInt | SLit (c : ascii) | SDouble.

Inductive scan_val := VInt (z : Z) | VDouble (q : Q).

(** The longest prefix of decimal digits, and the rest. *)
Fixpoint digits_prefix (s : string) : string * string :=
  match s with
  | String c r =>
      match digit_val c with
      | Some _ => let '(d, rest) := digits_prefix r in (String c d, rest)
      | None => ("", s)
      end
  | EmptyString => ("", "")
  end.

(** [%d]: white space skipped, an optional sign, at least one digit
    (the value is kept exact; an [int] overflow is undefined in C). *)
Definition scan_int (s : string) : option (Z * string) :=
  let s := skip_spaces s in
  let '(neg, body) :=
    match s with
    | String "-" r => (true, r)
    | String "+" r => (false, r)
    | _ => (false, s)
    end in
  let '(ds, rest) := digits_prefix body in
  match ds with
  | EmptyString => None
  | _ => let v := atoi_digits ds 0 in Some (if neg then - v else v, rest)
  end.

Section Scanf.

(** [strtod] of the C library: the value and the rest of the string, or
    [None] when no number starts the string (it skips leading white space
    itself). [%lf] converts as [strtod], and [atof(s)] is
    [strtod(s, NULL)]. Doubles are exact rationals here, as in the
    progress code. *)
Variable strtod : string -> option (Q * string).

(** The values assigned by [sscanf(s, fmt, ...)], in order, up to the
    first failing directive; [sscanf] returns their number (or [EOF] on
    an input failure before the first conversion, which compares unequal
    to 2, 3 and 4 as well). *)
Fixpoint scan_go (fmt : list scan_dir) (s : string) : list scan_val :=
  match fmt with
  | [] => []
  | SInt :: f =>
      match scan_int s with
      | Some (z, r) => VInt z :: scan_go f r
      | None => []
      end
  | SLit c :: f =>
      match s with
      | String c' r => if ascii_dec c c' then scan_go f r else []
      | EmptyString => []
      end
  | SDouble :: f =>
      match strtod s with
      | Some (q, r) => VDouble q :: scan_go f r
      | None => []
      end
  end.

Definition atof (s : string) : Q :=
  match strtod s with Some (q, _) => q | None => 0%Q end.

Definition fmt_hms_frac : list scan_dir :=
  [SInt; SLit ":"; SInt; SLit ":"; SInt; SLit "."; SDouble].
Definition fmt_hms : list scan_dir := [SInt; SLit ":"; SInt; SLit ":"; SInt].
Definition fmt_ms : list scan_dir := [SInt; SLit ":"; SInt].

(** [parse_time_to_frame]: a [sscanf] result equal to 4, 3 or 2 is the
    list of that many values. *)
Definition parse_time_to_frame (time_str : string) (fps : Q) : Z :=
  let seconds :=
    match scan_go fmt_hms_frac time_str with
    | [VInt h; VInt m; VInt s; VDouble ms] => (inject_Z (h * 3600 + m * 60 + s) + ms)%Q
    | _ =>
      match scan_go fmt_hms time_str with
      | [VInt h; VInt m; VInt s] => inject_Z (h * 3600 + m * 60 + s)
      | _ =>
        match scan_go fmt_ms time_str with
        | [VInt m; VInt s] => inject_Z (m * 60 + s)
        | _ => atof time_str
        end
      end
    end in
  trunc_Q (seconds * fps).

(** [start_seconds] / [end_seconds] of [extract_audio_thread]. *)
Definition audio_time_seconds (time : string) : Q :=
  match scan_go fmt_hms time with
  | [VInt h; VInt m; VInt s] => inject_Z (h * 3600 + m * 60 + s)
  | _ =>
    match scan_go fmt_ms time with
    | [VInt m; VInt s] => inject_Z (m * 60 + s)
    | _ => atof time
    end
  end.

End Scanf.

(** The string does not start with a decimal digit. *)
Definition no_digit_head (s : string) : Prop :=
  match s with String c _ => digit_val c = None | EmptyString => True end.

Fixpoint all_digits (s : string) : bool :=
  match s with
  | String c r => match digit_val c with Some _ => all_digits r | None => false end
  | EmptyString => true
  end.

Local Close Scope string_scope.

(* ================================================================== *)
(** ** Sample inputs *)

Definition cfg_example : Config :=
  mkConfig [5; 50; 150] 3 10 120 1 false false "" "" "" false "frame_%d.png"
    false false false.

Definition env_example (pkts : list (Packet nat)) : Env nat :=
  mkEnv true true true 0 100 None true pkts (fun _ => 0).

(** Three explicit targets, no range: [-frames 10,20,30]. *)
Definition cfg_targets : Config :=
  mkConfig [10; 20; 30] 3 0 0 1 false false "" "" "" false "frame_%d.png"
    false false false.

(** A 100-frame video stream, one frame per packet, frame [i] being [i]. *)
Definition env_targets : Env nat :=
  env_example (map (fun i => mkPacket 0 [i]) (seq 0 100)).

Definition cfg_out_of_range : Config :=
  mkConfig [500] 1 0 0 1 false false "" "" "" false "frame_%d.png"
    false false false.

(** An output pattern whose expansion fills 509 of the 511 characters. *)
Definition long_pattern : string := (spaces "a" 508 ++ "%d")%string.

(** A [-frames] argument of 1024 characters: ["1,1,...,1,"]. *)
Definition long_frames_arg : string := String.concat "" (repeat "1,"%string 512).

(** Range mode, [-start 2 -end 20 -step 3]. *)
Definition cfg_range : Config :=
  mkConfig [] 0 2 20 3 false false "" "" "" false "frame_%d.png"
    false false false.

(** A [strtod] for strings of decimal digits, for the time examples. *)
Definition digits_strtod (s : string) : option (Q * string) :=
  let '(ds, rest) := digits_prefix s in
  match ds with
  | EmptyString => None
  | _ => Some (inject_Z (atoi_digits ds 0), rest)
  end.

(* ================================================================== *)
(** * Proofs *)

(** ** The ring buffer refines a FIFO list *)

Section QueueProofs.

Context {Frame : Type} (cap : nat).

Lemma ring_mod_neq (a i j : nat) :
  (i < j < i + cap)%nat -> ((a + i) mod cap)%nat <> ((a + j) mod cap)%nat.
Proof.
  intros H E.
  assert (Hc : cap <> 0%nat) by lia.
  pose proof (Nat.div_mod_eq (a + i) cap) as E1.
  pose proof (Nat.div_mod_eq (a + j) cap) as E2.
  rewrite E in E1.
  set (r := ((a + j) mod cap)%nat) in *.
  set (x := ((a + i) / cap)%nat) in *.
  set (y := ((a + j) / cap)%nat) in *.
  destruct (Nat.le_gt_cases y x) as [Hyx | Hyx]; nia.
Qed.

Lemma slot_set_done (q : FrameQueue Frame) k : slot (queue_set_done q) k = slot q k.
Proof. reflexivity. Qed.

Lemma contents_set_done (q : FrameQueue Frame) :
  contents cap (queue_set_done q) = contents cap q.
Proof. reflexivity. Qed.

Lemma ring_inv_set_done (q : FrameQueue Frame) :
  ring_inv cap q -> ring_inv cap (queue_set_done q).
Proof. exact id. Qed.

Lemma ring_inv_init w h fmt fm pat tot :
  (1 <= cap)%nat -> ring_inv cap (queue_init (Frame:=Frame) cap w h fmt fm pat tot).
Proof.
  intros Hc. unfold ring_inv, queue_init; simpl.
  rewrite !length_replicate. rewrite Nat.Div0.mod_0_l by lia. lia.
Qed.

Lemma contents_init w h fmt fm pat tot :
  contents cap (queue_init (Frame:=Frame) cap w h fmt fm pat tot) = [].
Proof. reflexivity. Qed.

Lemma push_spec (q q' : FrameQueue Frame) f n :
  ring_inv cap q -> queue_push cap q f n = Some q' ->
  contents cap q' = contents cap q ++ [(Some f, n)] /\ ring_inv cap q'.
Proof.
  intros (Hlf & Hln & Ht & Hc & Hh) Hp. unfold queue_push in Hp.
  destruct (Nat.leb_spec cap (count q)) as [Hle | Hlt]; [discriminate|].
  injection Hp as <-.
  assert (Hcap : cap <> 0%nat) by lia.
  assert (Hhd : (head q < cap)%nat) by (rewrite Hh; apply Nat.mod_upper_bound; lia).
  split.
  - unfold contents, set_ring; cbn [count tail]. rewrite seq_S, map_app. simpl. f_equal.
    + apply map_ext_in. intros i Hi. apply in_seq in Hi.
      assert (Hne : head q <> ((tail q + i) mod cap)%nat).
      { rewrite Hh. intros E. apply (ring_mod_neq (tail q) i (count q)); [lia|].
        symmetry; exact E. }
      unfold slot; simpl.
      rewrite !list_lookup_insert_ne by exact Hne. reflexivity.
    + f_equal. unfold slot; simpl. rewrite <- Hh.
      rewrite list_lookup_insert_eq by lia.
      rewrite list_lookup_insert_eq by lia. reflexivity.
  - unfold ring_inv; simpl. rewrite !length_insert. repeat split; try lia.
    rewrite Hh, Nat.Div0.add_mod_idemp_l. f_equal; lia.
Qed.

Lemma pop_entry_spec (q q' : FrameQueue Frame) f n :
  ring_inv cap q -> queue_pop cap q = (PopEntry f n, q') ->
  contents cap q = (f, n) :: contents cap q' /\ ring_inv cap q'.
Proof.
  intros (Hlf & Hln & Ht & Hc & Hh) Hp. unfold queue_pop in Hp.
  assert (Hcap : cap <> 0%nat) by lia.
  destruct (count q) as [|c] eqn:Ec; [destruct (done q); discriminate|].
  injection Hp as <- <- <-.
  split.
  - unfold contents; simpl. rewrite Ec. simpl.
    f_equal.
    + unfold slot. rewrite Nat.add_0_r, Nat.mod_small by exact Ht. reflexivity.
    + rewrite <- seq_shift, map_map. apply map_ext. intros i.
      unfold slot; simpl. rewrite Nat.Div0.add_mod_idemp_l.
      replace (tail q + 1 + i)%nat with (tail q + S i)%nat by lia. reflexivity.
  - unfold ring_inv; simpl. repeat split; try lia.
    + apply Nat.mod_upper_bound. exact Hcap.
    + rewrite Hh, Nat.Div0.add_mod_idemp_l. f_equal; lia.
Qed.

Lemma pop_done_spec (q q' : FrameQueue Frame) :
  queue_pop cap q = (PopDone, q') -> q' = q /\ count q = 0%nat /\ done q = true.
Proof.
  unfold queue_pop. destruct (count q) eqn:Ec; [|discriminate].
  destruct (done q) eqn:Ed; intros H; inversion H; auto.
Qed.

Lemma run_fifo (q q' : FrameQueue Frame) ops out :
  ring_inv cap q -> run cap q ops = Some (q', out) ->
  contents cap q ++ pushed ops = out ++ contents cap q' /\ ring_inv cap q'.
Proof.
  revert q out. induction ops as [|o ops IH]; intros q out Hinv Hrun.
  - simpl in Hrun. injection Hrun as <- <-. simpl. rewrite app_nil_r. auto.
  - destruct o as [f n| |]; simpl in Hrun |- *.
    + destruct (queue_push cap q f n) as [q1|] eqn:Hp; [|discriminate].
      destruct (push_spec q q1 f n Hinv Hp) as [Hc1 Hi1].
      destruct (IH q1 out Hi1 Hrun) as [IHc IHi].
      rewrite <- IHc, Hc1, <- app_assoc. auto.
    + destruct (queue_pop cap q) as [[| |f n] q1] eqn:Hp; [discriminate| |].
      * destruct (pop_done_spec q q1 Hp) as (-> & _ & _). apply IH; auto.
      * destruct (run cap q1 ops) as [[q2 out2]|] eqn:Hr; [|discriminate].
        injection Hrun as <- <-.
        destruct (pop_entry_spec q q1 f n Hinv Hp) as [Hc1 Hi1].
        destruct (IH q1 out2 Hi1 Hr) as [IHc IHi].
        rewrite Hc1. simpl. rewrite IHc. auto.
    + rewrite <- contents_set_done. apply IH; auto.
Qed.

End QueueProofs.

Lemma run_ring_inv {Frame} cap (q q' : FrameQueue Frame) ops out :
  ring_inv cap q -> run cap q ops = Some (q', out) -> ring_inv cap q'.
Proof. intros Hi Hr. exact (proj2 (run_fifo cap q q' ops out Hi Hr)). Qed.

(** C1: for every capacity [cap >= 1] and every linearised run of
    [queue_push] / [queue_pop] / [queue_set_done] from [queue_init] (a push
    only happens when fewer than [cap] entries are outstanding, since
    otherwise it waits), the entries popped, followed by those still
    queued, are exactly the pushed [(frame, frame_number)] entries in push
    order: [queue_pop] returns entries in strict FIFO order. *)
Theorem queue_fifo {Frame} (cap : nat) w h fmt fm pat tot
    (ops : list (op Frame)) (q' : FrameQueue Frame) out :
  (1 <= cap)%nat ->
  run cap (queue_init cap w h fmt fm pat tot) ops = Some (q', out) ->
  out ++ contents cap q' = pushed ops.
Proof.
  intros Hc Hr.
  destruct (run_fifo cap _ q' ops out (ring_inv_init cap w h fmt fm pat tot Hc) Hr)
    as [E _].
  rewrite contents_init in E. simpl in E. symmetry. exact E.
Qed.

Lemma queue_fifo_witness :
  exists (q' : FrameQueue nat) out,
    (1 <= 2)%nat /\
    run 2 (queue_init 2 640 480 0 false "frame_%d.png" 3)
      [OpPush 1%nat 10; OpPush 2%nat 20; OpPop; OpPush 3%nat 30; OpPop; OpPop] = Some (q', out) /\
    out ++ contents 2 q' = pushed [OpPush 1%nat 10; OpPush 2%nat 20; OpPop; OpPush 3%nat 30; OpPop; OpPop].
Proof.
  eexists _, _. split; [lia|]. split; [vm_compute; reflexivity|].
  apply (queue_fifo 2 640 480 0 false "frame_%d.png" 3); [lia | vm_compute; reflexivity].
Defined.

(** C2: in every linearised run from [queue_init] with the capacity
    [MAX_QUEUE_SIZE = 32], the occupancy satisfies [0 <= count <= 32]
    ([count] is a natural number), and when [count = 32] every
    [queue_push] waits instead of inserting. *)
Theorem queue_bounded {Frame} w h fmt fm pat tot (ops : list (op Frame))
    (q' : FrameQueue Frame) out :
  run MAX_QUEUE_SIZE (queue_init MAX_QUEUE_SIZE w h fmt fm pat tot) ops
    = Some (q', out) ->
  (0 <= count q' <= MAX_QUEUE_SIZE)%nat /\
  (count q' = MAX_QUEUE_SIZE -> forall f n, queue_push MAX_QUEUE_SIZE q' f n = None).
Proof.
  intros Hr.
  assert (Hi : ring_inv MAX_QUEUE_SIZE q').
  { eapply run_ring_inv; [|exact Hr]. apply ring_inv_init. unfold MAX_QUEUE_SIZE; lia. }
  destruct Hi as (_ & _ & _ & Hc & _). split; [lia|].
  intros E f n. unfold queue_push. rewrite E, Nat.leb_refl. reflexivity.
Qed.

Lemma queue_bounded_witness :
  exists (q' : FrameQueue nat) out,
    run MAX_QUEUE_SIZE (queue_init MAX_QUEUE_SIZE 2 2 0 true "f%d" 40)
      (map (fun i => OpPush i (Z.of_nat i)) (seq 0 32)) = Some (q', out) /\
    (0 <= count q' <= MAX_QUEUE_SIZE)%nat /\ count q' = MAX_QUEUE_SIZE /\
    queue_push MAX_QUEUE_SIZE q' 99%nat 99 = None.
Proof.
  eexists _, _. split; [vm_compute; reflexivity|].
  pose proof (queue_bounded 2 2 0 true "f%d" 40
                (map (fun i => OpPush i (Z.of_nat i)) (seq 0 32)) _ _
                ltac:(vm_compute; reflexivity)) as [H1 H2].
  split; [exact H1|]. split; [vm_compute; reflexivity|].
  apply H2. vm_compute. reflexivity.
Defined.

(** C3: once [queue_set_done] has been called and the queue is empty,
    [queue_pop] returns 0 ([PopDone]) instead of waiting and leaves the
    queue unchanged: a popper woken by the broadcast of [queue_set_done]
    on an empty queue gets 0, and on any empty queue whose [done] flag is
    set, any number of further pops all return 0 and change nothing. *)
Theorem pop_after_done {Frame} (cap : nat) (q : FrameQueue Frame) :
  count q = 0%nat ->
  queue_pop cap (queue_set_done q) = (PopDone, queue_set_done q) /\
  (done q = true ->
   queue_pop cap q = (PopDone, q) /\
   forall k, run cap q (repeat OpPop k) = Some (q, [])).
Proof.
  intros Hc. split.
  - unfold queue_pop. simpl. rewrite Hc. reflexivity.
  - intros Hd.
    assert (Hp : queue_pop cap q = (PopDone, q))
      by (unfold queue_pop; rewrite Hc, Hd; reflexivity).
    split; [exact Hp|].
    intros k. induction k as [|k IH]; [reflexivity|].
    simpl. rewrite Hp. exact IH.
Qed.

Lemma pop_after_done_witness :
  count (queue_init (Frame:=nat) 32 2 2 0 false "f%d" 1) = 0%nat /\
  queue_pop 32 (queue_set_done (queue_init (Frame:=nat) 32 2 2 0 false "f%d" 1))
    = (PopDone, queue_set_done (queue_init 32 2 2 0 false "f%d" 1)).
Proof.
  split; [reflexivity|].
  apply (pop_after_done 32 (queue_init 32 2 2 0 false "f%d" 1)). reflexivity.
Defined.

(** ** Progress tracker *)

Lemma wrap32_small (z : Z) : -2147483648 <= z <= INT_MAX -> wrap32 z = z.
Proof.
  unfold wrap32, INT_MAX. intros H. rewrite Z.mod_small by lia. lia.
Qed.

Lemma progress_update_counter (pt : ProgressTracker) k a t :
  pt_total_frames (fst (progress_update pt k a t)) = pt_total_frames pt /\
  frames_processed (fst (progress_update pt k a t)) =
    (if pt_total_frames pt <? wrap32 (frames_processed pt + k)
     then pt_total_frames pt else wrap32 (frames_processed pt + k)).
Proof.
  unfold progress_update.
  destruct (Qlt_le_dec _ _); [destruct (_ <? pt_total_frames pt)|]; simpl; auto.
Qed.

Lemma progress_run_clamped (pt : ProgressTracker) (k : Z) (calls : list (Z * Q)) :
  0 <= frames_processed pt <= pt_total_frames pt ->
  0 <= k -> pt_total_frames pt + k <= INT_MAX ->
  Forall (fun c => fst c = k) calls ->
  pt_total_frames (progress_run pt calls) = pt_total_frames pt /\
  frames_processed (progress_run pt calls) =
    Z.min (frames_processed pt + Z.of_nat (length calls) * k) (pt_total_frames pt) /\
  Forall (fun v => 0 <= v <= pt_total_frames pt) (progress_trace pt calls).
Proof.
  revert pt. induction calls as [|[k' t] calls IH]; intros pt Hp Hk Hmax Hc.
  - simpl. split; [reflexivity|]. split; [lia | constructor].
  - apply Forall_cons in Hc as [Hk' Hc']. simpl in Hk'. subst k'.
    destruct (progress_update_counter pt k 0 t) as [Ht Hf].
    rewrite wrap32_small in Hf by lia.
    set (pt1 := fst (progress_update pt k 0 t)) in *.
    assert (Hp1 : 0 <= frames_processed pt1 <= pt_total_frames pt1).
    { rewrite Hf, Ht. destruct (Z.ltb_spec (pt_total_frames pt) (frames_processed pt + k)); lia. }
    destruct (IH pt1 Hp1 ltac:(lia) ltac:(lia) Hc') as (IHt & IHf & IHtr).
    simpl. fold pt1. rewrite IHt, IHf, Ht. split; [reflexivity|]. split.
    + rewrite Hf. destruct (Z.ltb_spec (pt_total_frames pt) (frames_processed pt + k)); lia.
    + constructor; [lia|]. rewrite <- Ht. exact IHtr.
Qed.

Lemma progress_update_frames_inc_counterexample :
  frames_processed (progress_run (progress_init 1) [(1, 0%Q); (1, 0%Q)]) = 1 /\
  1 <> 1 * 2 * 1.
Proof. split; [reflexivity | lia]. Qed.

(** C5 (amended): for T threads calling [progress_update(+k, 0)] M times
    each ([k >= 0], [total_frames >= 0], no [int] overflow), in any
    interleaving and at any wall times, [frames_processed] ends at
    [min(T*M*k, total_frames)] -- exactly [T*M*k] when that is at most
    [total_frames] -- and after every call it lies in [0, total_frames]. *)
Theorem progress_update_sum (total k : Z) (T M : nat) (calls : list (Z * Q)) :
  0 <= total -> 0 <= k -> total + k <= INT_MAX ->
  map fst calls = repeat k (T * M) ->
  frames_processed (progress_run (progress_init total) calls) =
    Z.min (Z.of_nat T * Z.of_nat M * k) total /\
  (Z.of_nat T * Z.of_nat M * k <= total ->
   frames_processed (progress_run (progress_init total) calls) =
     Z.of_nat T * Z.of_nat M * k) /\
  Forall (fun v => 0 <= v <= total) (progress_trace (progress_init total) calls).
Proof.
  intros Ht Hk Hmax Hcalls.
  assert (Hlen : length calls = (T * M)%nat).
  { rewrite <- (length_map fst calls), Hcalls. apply repeat_length. }
  assert (Hall : Forall (fun c => fst c = k) calls).
  { apply List.Forall_forall. intros c Hc.
    assert (Hin : In (fst c) (map fst calls)) by (apply in_map, Hc).
    rewrite Hcalls in Hin. apply repeat_spec in Hin. exact Hin. }
  destruct (progress_run_clamped (progress_init total) k calls
              ltac:(simpl; lia) Hk ltac:(simpl; lia) Hall) as (_ & Hf & Htr).
  simpl in Hf, Htr. rewrite Hlen, Nat2Z.inj_mul in Hf.
  split; [rewrite Hf; lia|]. split; [intros; rewrite Hf; lia|]. exact Htr.
Qed.

Lemma progress_update_sum_witness :
  frames_processed (progress_run (progress_init 4) [(1, 0%Q); (1, 1%Q); (1, 2%Q)]) =
    Z.min (Z.of_nat 3 * Z.of_nat 1 * 1) 4.
Proof.
  apply (progress_update_sum 4 1 3 1 [(1, 0%Q); (1, 1%Q); (1, 2%Q)]);
    unfold INT_MAX; try lia; reflexivity.
Defined.

Section ProgressRender.

Local Open Scope Q_scope.

Lemma progress_update_render (pt pt' : ProgressTracker) k a t r :
  progress_update pt k a t = (pt', Some r) -> r = render_values pt' t.
Proof.
  unfold progress_update.
  destruct (Qlt_le_dec _ _); [destruct (_ <? pt_total_frames pt)|];
    intros H; inversion H; reflexivity.
Qed.

Lemma progress_eta_counterexample :
  exists pt' r,
    progress_update (progress_init 1000) 5 0 1 = (pt', Some r) /\
    frames_per_sec r == 5 /\ 0 < frames_per_sec r /\ eta r = None.
Proof.
  eexists _, _. split; [reflexivity|].
  split; [reflexivity|]. split; [reflexivity|]. reflexivity.
Qed.

(** C7 (amended): whenever [progress_update] renders, the values shown
    are computed from the updated counters [processed] / [total] and the
    elapsed time [t]: percentage = [min(processed/total, 1)] when
    [total > 0] and 0 otherwise; rate = [processed/t] when [t > 0.001]
    and 0 otherwise; an ETA is computed exactly when percentage > 0.01
    and rate > 0, and it then equals [(total - processed)/rate]. *)
Theorem progress_render_values (pt pt' : ProgressTracker) k a t r :
  progress_update pt k a t = (pt', Some r) ->
  let p := inject_Z (frames_processed pt') in
  let tot := pt_total_frames pt' in
  ((0 < tot)%Z -> percentage r == Qmin (p / inject_Z tot) 1) /\
  ((tot <= 0)%Z -> percentage r == 0) /\
  (1 # 1000 < t -> frames_per_sec r == p / t) /\
  (t <= 1 # 1000 -> frames_per_sec r == 0) /\
  (forall x, eta r = Some x ->
     1 # 100 < percentage r /\ 0 < frames_per_sec r /\
     x == inject_Z (tot - frames_processed pt') / frames_per_sec r) /\
  (1 # 100 < percentage r -> 0 < frames_per_sec r -> eta r <> None).
Proof.
  intros Hu. apply progress_update_render in Hu. subst r.
  intros p tot. unfold render_values. fold tot. simpl.
  set (p0 := (if (0 <? tot)%Z then inject_Z (frames_processed pt') / inject_Z tot else 0)).
  set (pc := if Qlt_le_dec 1 p0 then 1 else p0).
  set (fps := if Qlt_le_dec (1 # 1000) t then inject_Z (frames_processed pt') / t else 0).
  assert (Hpc : pc == Qmin p0 1).
  { unfold pc. destruct (Qlt_le_dec 1 p0) as [H|H].
    - rewrite Q.min_r; [reflexivity | apply Qlt_le_weak; exact H].
    - rewrite Q.min_l; [reflexivity | exact H]. }
  split; [|split; [|split; [|split; [|split]]]].
  - intros Ht. rewrite Hpc. unfold p0. destruct (Z.ltb_spec 0 tot) as [Hz|Hz];
      [reflexivity | lia].
  - intros Ht. unfold pc, p0. destruct (Z.ltb_spec 0 tot) as [Hz|Hz]; [lia|].
    destruct (Qlt_le_dec 1 0) as [H|H]; [vm_compute in H; discriminate H | reflexivity].
  - intros Ht. unfold fps. destruct (Qlt_le_dec (1 # 1000) t) as [H|H];
      [reflexivity | exfalso; apply (Qlt_not_le _ _ Ht H)].
  - intros Ht. unfold fps. destruct (Qlt_le_dec (1 # 1000) t) as [H|H];
      [exfalso; apply (Qlt_not_le _ _ H Ht) | reflexivity].
  - intros x. destruct (Qlt_le_dec (1 # 100) pc) as [H1|H1]; [|discriminate].
    destruct (Qlt_le_dec 0 fps) as [H2|H2]; [|discriminate].
    intros E. injection E as <-. split; [exact H1|]. split; [exact H2|]. reflexivity.
  - intros H1 H2. destruct (Qlt_le_dec (1 # 100) pc) as [H3|H3];
      [|exfalso; apply (Qlt_not_le _ _ H1 H3)].
    destruct (Qlt_le_dec 0 fps) as [H4|H4];
      [discriminate | exfalso; apply (Qlt_not_le _ _ H2 H4)].
Qed.

Lemma progress_render_values_witness :
  exists pt' r,
    progress_update (progress_init 10) 5 0 2 = (pt', Some r) /\
    (forall x, eta r = Some x ->
       1 # 100 < percentage r /\ 0 < frames_per_sec r /\
       x == inject_Z (pt_total_frames pt' - frames_processed pt') / frames_per_sec r).
Proof.
  eexists _, _. split; [reflexivity|].
  apply (progress_render_values (progress_init 10) _ 5 0 2 _). reflexivity.
Defined.

End ProgressRender.

(** ** Target selection and the empty-selection exit *)

Lemma select_explicit_filter (fs : list Z) (s e : Z) :
  select_explicit fs s e = List.filter (fun f => (s <=? f) && (f <=? e)) fs.
Proof.
  induction fs as [|f fs IH]; simpl; [reflexivity|].
  destruct ((s <=? f) && (f <=? e)); rewrite IH; reflexivity.
Qed.

(** C6: when an explicit frame list is given ([frame_count > 0]; with or
    without a frame or time range), [frames_to_extract] is exactly the
    explicit indices [frames[0..frame_count-1]] that lie in
    [[start_frame, end_frame]] (main's bounds, computed from the range or
    time range and clamped to [[0, total_frames - 1]]), in list order:
    an index is kept if and only if it is in the list and in the bounds. *)
Theorem select_explicit_in_range (ttf : string -> Z) (cfg : Config) (total : Z) :
  0 < frame_count cfg ->
  let '(start_frame, end_frame) := frame_bounds ttf cfg total in
  let explicit := firstn (Z.to_nat (frame_count cfg)) (cfg_frames cfg) in
  exists fte,
    frames_to_extract cfg start_frame end_frame = Some fte /\
    fte = List.filter (fun f => (start_frame <=? f) && (f <=? end_frame)) explicit /\
    (forall x, In x fte <-> In x explicit /\ start_frame <= x <= end_frame).
Proof.
  intros Hc. destruct (frame_bounds ttf cfg total) as [s e]. simpl.
  eexists. split.
  - unfold frames_to_extract. destruct (Z.ltb_spec 0 (frame_count cfg)); [|lia].
    reflexivity.
  - rewrite select_explicit_filter. split; [reflexivity|].
    intros x. rewrite filter_In, andb_true_iff, Z.leb_le, Z.leb_le. reflexivity.
Qed.

Lemma select_explicit_in_range_witness :
  0 < frame_count cfg_example /\
  frames_to_extract cfg_example 10 120 = Some [50].
Proof.
  split; [reflexivity|].
  pose proof (select_explicit_in_range (fun _ => 0) cfg_example 200 ltac:(reflexivity))
    as H. simpl in H. destruct H as (fte & H1 & H2 & _). rewrite H1, H2. reflexivity.
Defined.

(** C8: in every run that gets past the setup checks (input present, not
    audio-only, input opened, a video stream found, a frame count known)
    and whose computed target list is empty ([extract_count == 0]), main
    returns exit code 1 with nothing done after the selection: the codec
    is not opened, no saver (or audio) thread is created and no packet
    is decoded. *)
Theorem empty_selection_exits {Frame} (env : Env Frame) (cfg : Config) (total : Z) :
  (ytdl_download cfg && negb (ytdl_ok env)) = false ->
  input_given env = true ->
  audio_only cfg = false ->
  open_ok env = true ->
  video_stream_idx env <> -1 ->
  total_of env = Some total ->
  frames_to_extract cfg (fst (frame_bounds (ttf env) cfg total))
                        (snd (frame_bounds (ttf env) cfg total)) = Some [] ->
  main env cfg = Some ([], 1).
Proof.
  intros Hy Hi Ha Ho Hv Ht Hs. unfold main.
  rewrite Hy, Hi, Ha, Ho. simpl.
  destruct (Z.eqb_spec (video_stream_idx env) (-1)) as [E|_]; [contradiction|].
  rewrite Ht. unfold main_extract.
  destruct (frame_bounds (ttf env) cfg total) as [s e]. simpl in Hs.
  rewrite Hs. reflexivity.
Qed.

Lemma empty_selection_exits_witness :
  frames_to_extract cfg_out_of_range 0 99 = Some [] /\
  main (env_example [mkPacket 0 [1%nat; 2%nat]]) cfg_out_of_range = Some ([], 1).
Proof.
  split; [reflexivity|].
  apply (empty_selection_exits (env_example [mkPacket 0 [1%nat; 2%nat]])
           cfg_out_of_range 100); try reflexivity. discriminate.
Defined.

(** ** The producer loop *)

Section ProducerProofs.

Context {Frame : Type} (s e fc : Z) (tl : list Z) (ec vid : Z).

Abbreviation rloop := (receive_loop (Frame:=Frame) s e fc tl ec).
Abbreviation ploop := (producer_loop (Frame:=Frame) s e fc tl ec vid).

Lemma receive_loop_app (l1 l2 : list Frame) cur q :
  q < ec ->
  rloop (l1 ++ l2) cur q =
    let '(evs, c, q1) := rloop l1 cur q in
    if ec <=? q1 then (evs, c, q1)
    else let '(evs2, c2, q2) := rloop l2 c q1 in (evs ++ evs2, c2, q2).
Proof.
  revert cur q. induction l1 as [|f l1 IH]; intros cur q Hq; simpl.
  - destruct (ec <=? q) eqn:E; [apply Z.leb_le in E; lia|].
    destruct (rloop l2 cur q) as [[evs2 c2] q2]. reflexivity.
  - destruct (producer_match s e fc tl ec cur); cbn;
      [ destruct (ec <=? q + 1) eqn:Hs | destruct (ec <=? q) eqn:Hs ]; cbn;
      rewrite ?Hs; try reflexivity; apply Z.leb_gt in Hs; rewrite IH by lia;
      destruct (rloop l1 (cur + 1) _) as [[evs1 c1] q1']; cbn;
      (destruct (ec <=? q1'); [reflexivity|]);
      destruct (rloop l2 c1 q1') as [[evs2 c2] q2]; reflexivity.
Qed.

(** Reading packets of other streams changes nothing, and the video
    packets are decoded one after the other: the producer is the inner
    loop run over the whole decoded video stream. *)
Lemma producer_flat (pkts : list (Packet Frame)) cur q :
  q < ec -> ploop pkts cur q = rloop (video_frames vid pkts) cur q.
Proof.
  revert cur q. induction pkts as [|p pkts IH]; intros cur q Hq; [reflexivity|].
  unfold video_frames. simpl.
  destruct (Z.ltb_spec q ec) as [_|]; [|lia].
  destruct (Z.eqb_spec (stream_index p) vid) as [Hv|Hv]; simpl.
  - rewrite receive_loop_app by exact Hq.
    destruct (rloop (decoded p) cur q) as [[evs c] q1].
    destruct (Z.leb_spec ec q1); [reflexivity|].
    rewrite IH by lia. reflexivity.
  - destruct (Z.leb_spec ec q); [lia|].
    rewrite IH by exact Hq. fold (video_frames vid pkts).
    destruct (rloop (video_frames vid pkts) cur q) as [[evs c] q1]. reflexivity.
Qed.

Lemma receive_loop_spec (l : list Frame) cur q :
  q < ec ->
  let '(evs, c, q') := rloop l cur q in
  (exists k, c = cur + Z.of_nat k /\ (k <= length l)%nat /\
     receives_of evs = map (fun i => cur + Z.of_nat i) (seq 0 k) /\
     ((q' = ec /\ exists pre f n, evs = pre ++ [EvPush f n]) \/
      (q' < ec /\ k = length l))) /\
  Z.of_nat (length (pushes_of evs)) = q' - q /\
  Forall (fun fn => producer_match s e fc tl ec (snd fn) = true) (pushes_of evs).
Proof.
  revert cur q. induction l as [|f l IH]; intros cur q Hq; simpl.
  - split; [|split; [lia | constructor]].
    exists 0%nat. split; [lia|]. split; [lia|]. split; [reflexivity|]. right; lia.
  - destruct (producer_match s e fc tl ec cur) eqn:Hm.
    + destruct (Z.leb_spec ec (q + 1)) as [Hs|Hs].
      * split; [|split; [simpl; lia | repeat constructor; exact Hm]].
        exists 1%nat. split; [lia|]. split; [lia|]. split; [simpl; f_equal; lia|].
        left. split; [lia|]. exists [EvReceive cur], f, cur. reflexivity.
      * specialize (IH (cur + 1) (q + 1) Hs).
        destruct (rloop l (cur + 1) (q + 1)) as [[evs2 c2] q2].
        destruct IH as ((k & Hc & Hk & Hr & Hend) & Hn & Hf).
        split; [|split].
        -- exists (S k). split; [lia|]. split; [simpl; lia|]. split.
           ++ simpl. rewrite Hr. f_equal; [lia|].
              rewrite <- seq_shift, map_map. apply map_ext. intros i. lia.
           ++ destruct Hend as [(Hq2 & pre & g & n & Hev)|Hend]; [left|right; simpl; lia].
              split; [exact Hq2|]. exists (EvReceive cur :: EvPush f cur :: pre), g, n.
              rewrite Hev. reflexivity.
        -- simpl. lia.
        -- simpl. constructor; [exact Hm | exact Hf].
    + destruct (Z.leb_spec ec q) as [Hs|Hs]; [lia|].
      specialize (IH (cur + 1) q Hq).
      destruct (rloop l (cur + 1) q) as [[evs2 c2] q2].
      destruct IH as ((k & Hc & Hk & Hr & Hend) & Hn & Hf).
      split; [|split; [exact Hn | exact Hf]].
      exists (S k). split; [lia|]. split; [simpl; lia|]. split.
      * simpl. rewrite Hr. f_equal; [lia|].
        rewrite <- seq_shift, map_map. apply map_ext. intros i. lia.
      * destruct Hend as [(Hq2 & pre & g & n & Hev)|Hend]; [left|right; simpl; lia].
        split; [exact Hq2|]. exists (EvReceive cur :: pre), g, n.
        rewrite Hev. reflexivity.
Qed.

End ProducerProofs.

(** ** The worker pool persists every pushed entry exactly once *)

Section PoolProofs.

Context {Frame : Type} (cap : nat).

Lemma held_insert (ws : list (wstate Frame)) i w w' :
  ws !! i = Some w -> held (<[i := w']> ws) ++ hold1 w ≡ₚ held ws ++ hold1 w'.
Proof.
  revert i. induction ws as [|x ws IH]; intros [|i] H; try discriminate; simpl in *.
  - injection H as ->. unfold held; simpl. solve_Permutation.
  - unfold held in *; simpl. rewrite <- !app_assoc. apply Permutation_app_head.
    apply IH. exact H.
Qed.

Lemma held_exited (ws : list (wstate Frame)) :
  Forall (fun w => w = WExited) ws -> held ws = [].
Proof.
  induction 1 as [|w ws Hw _ IH]; [reflexivity|]. subst w. exact IH.
Qed.

Lemma pool_inv_init (q : FrameQueue Frame) P nw :
  ring_inv cap q -> count q = 0%nat -> done q = false ->
  pool_inv cap P nw (sys_init q P nw).
Proof.
  intros Hi Hc Hd. unfold pool_inv, sys_init; simpl.
  split; [exact Hi|]. split.
  - exists []. unfold contents. rewrite Hc. split; [reflexivity|].
    unfold held. induction nw as [|nw IH]; [reflexivity|]. exact IH.
  - split; [rewrite Hd; discriminate|]. split; [|apply length_replicate].
    intros j Hj. apply lookup_replicate in Hj as [Hj _]. discriminate.
Qed.

Lemma lookup_insert_cases (ws : list (wstate Frame)) i j w' x :
  <[i := w']> ws !! j = Some x -> (i = j /\ x = w') \/ (i <> j /\ ws !! j = Some x).
Proof.
  intros H. destruct (decide (i = j)) as [->|Hne].
  - left. split; [reflexivity|].
    destruct (decide (j < length ws)%nat) as [Hl|Hl].
    + rewrite list_lookup_insert_eq in H by exact Hl. congruence.
    + rewrite list_insert_ge in H by lia. apply lookup_lt_Some in H. lia.
  - right. rewrite list_lookup_insert_ne in H by exact Hne. auto.
Qed.

Lemma pool_step_inv P nw (st st' : Sys Frame) c :
  pool_inv cap P nw st -> sys_step cap st c = Some st' -> pool_inv cap P nw st'.
Proof.
  intros (Hi & (popped & Hp & Hperm) & Hdone & Hexit & Hlen) Hs.
  destruct c as [|i]; simpl in Hs.
  - destruct (prod_pending st) as [|[f n] rest] eqn:Epend.
    + destruct (prod_finished st); [discriminate|]. injection Hs as <-.
      unfold pool_inv; simpl. split; [apply ring_inv_set_done, Hi|]. split.
      * exists popped. rewrite contents_set_done. split; assumption.
      * split; [reflexivity|]. split; [|exact Hlen].
        intros j Hj. destruct (Hexit j Hj) as [_ Hc]. split; [reflexivity | exact Hc].
    + destruct (queue_push cap (sq st) f n) as [q'|] eqn:Hpush; [|discriminate].
      injection Hs as <-.
      destruct (push_spec cap (sq st) q' f n Hi Hpush) as [Hc' Hi'].
      assert (Hd : done (sq st) = false).
      { destruct (done (sq st)) eqn:D; [|reflexivity]. specialize (Hdone eq_refl). discriminate. }
      assert (Hd' : done q' = false).
      { unfold queue_push in Hpush. destruct (cap <=? count (sq st))%nat; [discriminate|].
        injection Hpush as <-. exact Hd. }
      unfold pool_inv; simpl. split; [exact Hi'|]. split.
      * exists popped. split; [|exact Hperm]. rewrite Hc', Hp. simpl.
        rewrite <- !app_assoc. reflexivity.
      * split; [rewrite Hd'; discriminate|]. split; [|exact Hlen].
        intros j Hj. destruct (Hexit j Hj) as [D _]. congruence.
  - destruct (workers st !! i) as [[|e|]|] eqn:Hw; try discriminate.
    + destruct (queue_pop cap (sq st)) as [[| |f n] q'] eqn:Hpop; try discriminate.
      * injection Hs as <-. destruct (pop_done_spec cap (sq st) q' Hpop) as (_ & Hc & Hd).
        unfold pool_inv; simpl. split; [exact Hi|]. split.
        -- exists popped. split; [exact Hp|].
           rewrite Hperm. apply Permutation_app_head.
           pose proof (held_insert (workers st) i WRunning WExited Hw) as H.
           simpl in H. rewrite !app_nil_r in H. symmetry; exact H.
        -- split; [exact Hdone|]. split; [|rewrite length_insert; exact Hlen].
           intros j _. split; assumption.
      * injection Hs as <-.
        destruct (pop_entry_spec cap (sq st) q' f n Hi Hpop) as [Hc' Hi'].
        assert (Hd : done q' = done (sq st)).
        { unfold queue_pop in Hpop. destruct (count (sq st)); [destruct (done (sq st)); discriminate|].
          injection Hpop as _ _ <-. reflexivity. }
        assert (Hcnt : count (sq st) <> 0%nat).
        { unfold queue_pop in Hpop. destruct (count (sq st)); [destruct (done (sq st)); discriminate|]. lia. }
        unfold pool_inv; simpl. split; [exact Hi'|]. split.
        -- exists (popped ++ [(f, n)]). split.
           ++ rewrite Hp, Hc'. rewrite <- !app_assoc. reflexivity.
           ++ rewrite Hperm, <- app_assoc. apply Permutation_app_head.
              pose proof (held_insert (workers st) i WRunning (WHolding (f, n)) Hw) as H.
              simpl in H. rewrite app_nil_r in H. symmetry; exact H.
        -- rewrite Hd. split; [exact Hdone|]. split; [|rewrite length_insert; exact Hlen].
           intros j Hj. apply lookup_insert_cases in Hj as [[_ E]|[_ Hj]]; [discriminate|].
           destruct (Hexit j Hj) as [_ Hc]. contradiction.
    + injection Hs as <-. unfold pool_inv; simpl. split; [exact Hi|]. split.
      * exists popped. split; [exact Hp|].
        rewrite Hperm, <- app_assoc. apply Permutation_app_head.
        pose proof (held_insert (workers st) i (WHolding e) WRunning Hw) as H.
        simpl in H. rewrite app_nil_r in H. rewrite <- H. solve_Permutation.
      * split; [exact Hdone|]. split; [|rewrite length_insert; exact Hlen].
        intros j Hj. apply lookup_insert_cases in Hj as [[_ E]|[_ Hj]]; [discriminate|].
        exact (Hexit j Hj).
Qed.

Lemma pool_run_inv P nw (st st' : Sys Frame) l :
  pool_inv cap P nw st -> sys_run cap st l = Some st' -> pool_inv cap P nw st'.
Proof.
  revert st. induction l as [|c l IH]; intros st Hinv Hr; simpl in Hr.
  - injection Hr as <-. exact Hinv.
  - destruct (sys_step cap st c) as [st1|] eqn:Hs; [|discriminate].
    exact (IH st1 (pool_step_inv P nw st st1 c Hinv Hs) Hr).
Qed.

(** When every saver thread has returned, the files written are the
    pushed entries, each exactly once (in some order). *)
Lemma pool_persists_all (q : FrameQueue Frame) P nw l (st' : Sys Frame) :
  ring_inv cap q -> count q = 0%nat -> done q = false -> (1 <= nw)%nat ->
  sys_run cap (sys_init q P nw) l = Some st' -> all_exited st' ->
  saved st' ≡ₚ as_entries P.
Proof.
  intros Hi Hc Hd Hnw Hr Hall.
  destruct (pool_run_inv P nw _ st' l (pool_inv_init q P nw Hi Hc Hd) Hr)
    as (_ & (popped & Hp & Hperm) & Hdone & Hexit & Hlen).
  destruct (workers st') as [|w ws] eqn:Ews; [simpl in Hlen; lia|].
  unfold all_exited in Hall. rewrite Ews in Hall.
  assert (Hw0 : (w :: ws) !! 0%nat = Some WExited)
    by (apply Forall_cons in Hall as [-> _]; reflexivity).
  destruct (Hexit 0%nat Hw0) as [D C].
  rewrite (Hdone D) in Hp. unfold contents in Hp. rewrite C in Hp. simpl in Hp.
  rewrite app_nil_r in Hp. rewrite Hp, Hperm, held_exited by exact Hall.
  rewrite app_nil_r. reflexivity.
Qed.

End PoolProofs.

(** ** C4: the producer stops at the last match and signals once *)

Lemma producer_loop_spec {Frame} s e fc tl ec vid (pkts : list (Packet Frame)) :
  0 < ec ->
  let '(evs, c, q') := producer_loop s e fc tl ec vid pkts 0 0 in
  Z.of_nat (length (pushes_of evs)) = q' /\ q' <= ec /\
  Forall (fun fn => producer_match s e fc tl ec (snd fn) = true) (pushes_of evs) /\
  ((q' = ec /\ exists pre f n, evs = pre ++ [EvPush f n]) \/
   (q' < ec /\
    receives_of evs = map Z.of_nat (seq 0 (length (video_frames vid pkts))))).
Proof.
  intros Hec. rewrite producer_flat by exact Hec.
  pose proof (receive_loop_spec s e fc tl ec (video_frames vid pkts) 0 0 Hec) as H.
  destruct (receive_loop s e fc tl ec (video_frames vid pkts) 0 0) as [[evs c] q'].
  destruct H as ((k & Hc & Hk & Hr & Hend) & Hn & Hf).
  split; [lia|]. split; [destruct Hend as [[-> _]|[? _]]; lia|]. split; [exact Hf|].
  destruct Hend as [Hend|[Hq ->]]; [left; exact Hend|right].
  split; [exact Hq|]. rewrite Hr. apply map_ext. intros i. lia.
Qed.

Lemma producer_events_shape {Frame} (pre post : list (mevent Frame)) pevs :
  producer_events pre = [] -> producer_events post = [] ->
  producer_events (pre ++ map MProducer pevs ++ [MSetDone] ++ post) = pevs.
Proof.
  intros Hpre Hpost. unfold producer_events in *.
  rewrite !omap_app, Hpre, Hpost. simpl. rewrite app_nil_r.
  induction pevs as [|x l IH]; [reflexivity|]. simpl. f_equal. exact IH.
Qed.

(** The shape of a run of [main] that reaches the producer. *)
Lemma main_shape {Frame} (env : Env Frame) (cfg : Config) evs :
  audio_only cfg = false -> main env cfg = Some (evs, 0) ->
  exists total s e fte c q pre post,
    total_of env = Some total /\ frame_bounds (ttf env) cfg total = (s, e) /\
    frames_to_extract cfg s e = Some fte /\ (0 < length fte)%nat /\
    producer_loop s e (frame_count cfg) fte (Z.of_nat (length fte))
      (video_stream_idx env) (packets env) 0 0 = (producer_events evs, c, q) /\
    evs = pre ++ map MProducer (producer_events evs) ++ [MSetDone] ++ post /\
    ~ In MSetDone pre /\ ~ In MSetDone post /\
    producer_events pre = [] /\ producer_events post = [].
Proof.
  intros Ha Hm. unfold main in Hm. rewrite Ha in Hm.
  destruct (ytdl_download cfg && negb (ytdl_ok env)); [discriminate|].
  destruct (input_given env); [|discriminate]. destruct (open_ok env); [|discriminate].
  destruct (video_stream_idx env =? -1); [discriminate|]. simpl in Hm.
  destruct (total_of env) as [total|] eqn:Ht; [|discriminate].
  unfold main_extract in Hm. destruct (frame_bounds (ttf env) cfg total) as [s e] eqn:Hb.
  destruct (frames_to_extract cfg s e) as [fte|] eqn:Hf; [|discriminate].
  destruct (Z.of_nat (length fte) =? 0) eqn:H0; [discriminate|].
  apply Z.eqb_neq in H0.
  destruct (codec_ok env); [|discriminate]. cbn [negb] in Hm.
  destruct (producer_loop s e (frame_count cfg) fte (Z.of_nat (length fte))
              (video_stream_idx env) (packets env) 0 0) as [[pevs c] q'] eqn:Hp.
  injection Hm as Hevs.
  set (pre := MOpenCodec (Frame:=Frame) :: (if 0 <? s then [MSeek] else []) ++
          map MSpawnSaver (seq 0 NUM_SAVER_THREADS) ++
          (if extract_audio cfg then [MSpawnAudio] else [])).
  set (post := map (MJoinSaver (Frame:=Frame)) (seq 0 NUM_SAVER_THREADS) ++
          (if extract_audio cfg then [MJoinAudio] else []) ++ [MFinish]).
  assert (Hpre : producer_events pre = [])
    by (unfold pre; destruct (0 <? s), (extract_audio cfg); reflexivity).
  assert (Hpost : producer_events post = [])
    by (unfold post; destruct (extract_audio cfg); reflexivity).
  assert (Hev : evs = pre ++ map MProducer pevs ++ [MSetDone] ++ post).
  { rewrite <- Hevs. unfold pre, post.
    destruct (0 <? s), (extract_audio cfg); simpl; reflexivity. }
  clear Hevs.
  assert (E : producer_events evs = pevs)
    by (rewrite Hev; apply producer_events_shape; assumption).
  rewrite E.
  exists total, s, e, fte, c, q', pre, post.
  do 4 (split; [reflexivity || assumption || lia|]). split; [exact Hp|]. split; [exact Hev|].
  split; [|split; [|split; assumption]];
    unfold pre, post; destruct (0 <? s), (extract_audio cfg); simpl;
    intros H; repeat (destruct H as [H|H]; [discriminate H|]); exact H.
Qed.

Lemma scenario_receive {Frame} (l : list Frame) :
  (31 <= length l)%nat ->
  let '(evs, c, q) := receive_loop 0 99 3 [10; 20; 30] 3 l 0 0 in
  receives_of evs = map Z.of_nat (seq 0 31) /\ c = 31 /\ q = 3 /\
  exists f10 f20 f30,
    l !! 10%nat = Some f10 /\ l !! 20%nat = Some f20 /\ l !! 30%nat = Some f30 /\
    pushes_of evs = [(f10, 10); (f20, 20); (f30, 30)].
Proof.
  intros Hl.
  do 31 (destruct l as [|? l]; [simpl in Hl; lia|]).
  vm_compute.
  split; [reflexivity|]. split; [reflexivity|]. split; [reflexivity|].
  eexists _, _, _. split; [reflexivity|]. split; [reflexivity|].
  split; [reflexivity|]. reflexivity.
Qed.

(** C4: the producer stops decoding as soon as it has enqueued as many
    frames as there are targets, or when the source is exhausted; the
    queue is marked done exactly once, after the last producer event; only
    matching frames are enqueued, and the producer's trace ends with the
    push of the last match when every target was found.  For the targets
    [{10, 20, 30}] over a 100-frame source, frames 0..30 are decoded, the
    frames 10, 20 and 30 are enqueued in that order, and every schedule of
    the four savers that ends with all of them exited has saved exactly
    those three entries. *)
Theorem producer_stops_at_last_match {Frame} :
  (forall (env : Env Frame) (cfg : Config) evs,
    audio_only cfg = false -> main env cfg = Some (evs, 0) ->
    exists total s e fte pre post,
      total_of env = Some total /\ frame_bounds (ttf env) cfg total = (s, e) /\
      frames_to_extract cfg s e = Some fte /\
      evs = pre ++ map MProducer (producer_events evs) ++ [MSetDone] ++ post /\
      ~ In MSetDone pre /\ ~ In MSetDone post /\
      producer_events pre = [] /\ producer_events post = [] /\
      (length (pushes_of (producer_events evs)) <= length fte)%nat /\
      Forall (fun fn => producer_match s e (frame_count cfg) fte
                          (Z.of_nat (length fte)) (snd fn) = true)
        (pushes_of (producer_events evs)) /\
      ((length (pushes_of (producer_events evs)) = length fte /\
        exists pevs f n, producer_events evs = pevs ++ [EvPush f n]) \/
       ((length (pushes_of (producer_events evs)) < length fte)%nat /\
        receives_of (producer_events evs) =
          map Z.of_nat
            (seq 0 (length (video_frames (video_stream_idx env) (packets env))))))) /\
  (forall (env : Env Frame) w h fmt fm pat,
    input_given env = true -> open_ok env = true -> video_stream_idx env <> -1 ->
    total_of env = Some 100 -> codec_ok env = true ->
    length (video_frames (video_stream_idx env) (packets env)) = 100%nat ->
    exists evs f10 f20 f30,
      main env cfg_targets = Some (evs, 0) /\
      video_frames (video_stream_idx env) (packets env) !! 10%nat = Some f10 /\
      video_frames (video_stream_idx env) (packets env) !! 20%nat = Some f20 /\
      video_frames (video_stream_idx env) (packets env) !! 30%nat = Some f30 /\
      receives_of (producer_events evs) = map Z.of_nat (seq 0 31) /\
      pushes_of (producer_events evs) = [(f10, 10); (f20, 20); (f30, 30)] /\
      forall l st',
        sys_run MAX_QUEUE_SIZE
          (sys_init (queue_init MAX_QUEUE_SIZE w h fmt fm pat 100)
             (pushes_of (producer_events evs)) NUM_SAVER_THREADS) l = Some st' ->
        all_exited st' ->
        saved st' ≡ₚ [(Some f10, 10); (Some f20, 20); (Some f30, 30)]).
Proof.
  split.
  - intros env cfg evs Ha Hm.
    destruct (main_shape env cfg evs Ha Hm) as
      (total & s & e & fte & c & q & pre & post & Ht & Hb & Hf & Hlen & Hp & Hev &
       H1 & H2 & H3 & H4).
    pose proof (producer_loop_spec s e (frame_count cfg) fte (Z.of_nat (length fte))
                  (video_stream_idx env) (packets env) ltac:(lia)) as Hs.
    rewrite Hp in Hs. destruct Hs as (Hq & Hle & Hall & Hend).
    exists total, s, e, fte, pre, post.
    do 8 (split; [assumption|]). split; [lia|]. split; [exact Hall|].
    destruct Hend as [[Hq' Hx]|[Hq' Hr]]; [left|right]; split; (lia || assumption).
  - intros env w h fmt fm pat Hin Hop Hvid Ht Hc Hlen.
    assert (Hm : exists evs, main env cfg_targets = Some (evs, 0)).
    { unfold main, main_extract. rewrite Hin, Hop, Ht, Hc.
      replace (video_stream_idx env =? -1) with false
        by (symmetry; apply Z.eqb_neq; exact Hvid).
      cbn -[producer_loop].
      destruct (producer_loop _ _ _ _ _ _ _ _ _) as [[? ?] ?].
      eexists. reflexivity. }
    destruct Hm as [evs Hm].
    destruct (main_shape env cfg_targets evs eq_refl Hm) as
      (total & s & e & fte & c & q & pre & post & Ht' & Hb & Hf & Hlen' & Hp & _).
    rewrite Ht in Ht'. injection Ht' as <-.
    vm_compute in Hb. injection Hb as <- <-.
    vm_compute in Hf. injection Hf as <-.
    change (Z.of_nat (length [10; 20; 30])) with 3 in Hp.
    change (frame_count cfg_targets) with 3 in Hp.
    rewrite producer_flat in Hp by lia.
    pose proof (scenario_receive (video_frames (video_stream_idx env) (packets env))
                  ltac:(lia)) as Hsc.
    rewrite Hp in Hsc.
    destruct Hsc as (Hr & _ & _ & f10 & f20 & f30 & H10 & H20 & H30 & Hpush).
    exists evs, f10, f20, f30.
    do 6 (split; [assumption|]).
    intros l st' Hrun Hex. rewrite Hpush in Hrun.
    change [(Some f10, 10); (Some f20, 20); (Some f30, 30)]
      with (as_entries [(f10, 10); (f20, 20); (f30, 30)]).
    apply (pool_persists_all MAX_QUEUE_SIZE
             (queue_init MAX_QUEUE_SIZE w h fmt fm pat 100) _ NUM_SAVER_THREADS l st');
      [apply ring_inv_init; vm_compute; lia | reflexivity | reflexivity |
       vm_compute; lia | exact Hrun | exact Hex].
Qed.

Lemma producer_stops_at_last_match_witness :
  exists evs : list (mevent nat),
    main env_targets cfg_targets = Some (evs, 0) /\
    pushes_of (producer_events evs) = [(10%nat, 10); (20%nat, 20); (30%nat, 30)] /\
    receives_of (producer_events evs) = map Z.of_nat (seq 0 31) /\
    exists pre post,
      evs = pre ++ map MProducer (producer_events evs) ++ [MSetDone] ++ post /\
      ~ In MSetDone pre /\ ~ In MSetDone post.
Proof.
  destruct (proj2 (producer_stops_at_last_match (Frame:=nat)) env_targets
              640 480 0 false "frame_%d.png"%string eq_refl eq_refl ltac:(simpl; lia)
              eq_refl eq_refl ltac:(vm_compute; reflexivity))
    as (evs & f10 & f20 & f30 & Hm & H10 & H20 & H30 & Hr & Hp & _).
  vm_compute in H10, H20, H30.
  injection H10 as <-. injection H20 as <-. injection H30 as <-.
  destruct (proj1 (producer_stops_at_last_match (Frame:=nat)) env_targets cfg_targets
              evs eq_refl Hm)
    as (total & s & e & fte & pre & post & _ & _ & _ & Hev & Hpre & Hpost & _).
  exists evs. split; [exact Hm|]. split; [exact Hp|]. split; [exact Hr|].
  exists pre, post. split; [exact Hev|]. split; assumption.
Defined.

(** ** C9: the extension of the written file *)

Section FileNames.

Local Open Scope string_scope.

Lemma substring_0_all (str : string) (n : nat) :
  (String.length str <= n)%nat -> substring 0 n str = str.
Proof.
  revert n. induction str as [|c str IH]; intros [|n] Hn; simpl in *;
    try reflexivity; try lia.
  rewrite IH by lia. reflexivity.
Qed.

Lemma string_length_app (a b : string) :
  String.length (a ++ b) = (String.length a + String.length b)%nat.
Proof. induction a as [|c a IH]; simpl; [reflexivity|]. rewrite IH. reflexivity. Qed.

Lemma prefix_refl (str : string) : String.prefix str str = true.
Proof.
  induction str as [|c str IH]; [reflexivity|]. simpl.
  destruct (ascii_dec c c) as [_|Hc]; [exact IH|congruence].
Qed.

Lemma strstr_app_r (a b : string) : strstr (a ++ b) b = true.
Proof.
  assert (Eq : forall str, strstr str b = String.prefix b str ||
            match str with EmptyString => false | String _ s' => strstr s' b end)
    by (intros []; reflexivity).
  induction a as [|c a IH]; rewrite Eq.
  - rewrite prefix_refl. reflexivity.
  - change (String.prefix b (String c a ++ b) || strstr (a ++ b) b = true).
    rewrite IH. apply orb_true_r.
Qed.

(** C9 (counterexample): with a pattern whose expansion has 509
    characters and no [".yuv"], [snprintf] into [char with_ext[512]] cuts
    the appended extension to [".y"] after 511 characters, and the fast-mode
    worker writes a path without [".yuv"]. *)
Lemma saver_filename_ext_counterexample :
  saver_filename true long_pattern 5 = spaces "a" 508 ++ "5.y" /\
  strstr (saver_filename true long_pattern 5) ".yuv" = false.
Proof. split; vm_compute; reflexivity. Qed.

Lemma substring_0_le (str : string) (n : nat) :
  (String.length (substring 0 n str) <= n)%nat.
Proof.
  revert n. induction str as [|c str IH]; intros [|n]; simpl; try lia.
  specialize (IH n). lia.
Qed.

Lemma substring_0_app (a b : string) (n : nat) :
  (String.length a <= n)%nat ->
  substring 0 n (a ++ b) = a ++ substring 0 (n - String.length a) b.
Proof.
  revert n. induction a as [|c a IH]; intros n H; simpl in *.
  - rewrite Nat.sub_0_r. reflexivity.
  - destruct n as [|n]; [lia|]. simpl. rewrite IH by lia. reflexivity.
Qed.

Lemma prefix_short (sub str : string) :
  (String.length str < String.length sub)%nat -> String.prefix sub str = false.
Proof.
  revert sub. induction str as [|c str IH]; intros [|d sub] H; simpl in *;
    try lia; try reflexivity.
  destruct (ascii_dec d c); [apply IH; lia|reflexivity].
Qed.

Lemma strstr_short (str sub : string) :
  (String.length str < String.length sub)%nat -> strstr str sub = false.
Proof.
  induction str as [|c str IH]; intros H.
  - destruct sub; simpl in *; [lia|reflexivity].
  - change (String.prefix sub (String c str) || strstr str sub = false).
    rewrite prefix_short by exact H. rewrite IH by (simpl in H; lia). reflexivity.
Qed.

(** Appending [p] (empty or starting with ['.']) to a string that does not
    start with [e] (which has no ['.']) gives one that does not either. *)
Lemma prefix_app_nodot (e a p : string) :
  Forall (fun c => c <> "."%char) (list_ascii_of_string e) ->
  match p with EmptyString => True | String c _ => c = "."%char end ->
  String.prefix e a = false -> String.prefix e (a ++ p) = false.
Proof.
  revert a. induction e as [|d e IH]; intros a Hd Hp H; [destruct a; discriminate H|].
  inversion Hd as [|? ? Hd1 Hd2]; subst.
  destruct a as [|c a]; simpl.
  - destruct p as [|b p]; [reflexivity|]. subst b. simpl.
    destruct (ascii_dec d "."); [contradiction|reflexivity].
  - simpl in H. destruct (ascii_dec d c); [apply IH; assumption|reflexivity].
Qed.

(** A cut extension [p] (a proper prefix of ["." ++ e]) appended to a
    name without ["." ++ e] never completes it. *)
Lemma strstr_app_cut (a p e : string) :
  Forall (fun c => c <> "."%char) (list_ascii_of_string e) ->
  (String.length p < String.length (String "." e))%nat ->
  match p with EmptyString => True | String c _ => c = "."%char end ->
  strstr a (String "." e) = false -> strstr (a ++ p) (String "." e) = false.
Proof.
  intros He Hl Hp. induction a as [|c a IH]; intros H.
  - apply strstr_short. exact Hl.
  - change (String.prefix (String "." e) (String c a) || strstr a (String "." e) = false) in H.
    apply orb_false_iff in H as [H1 H2].
    change (String.prefix (String "." e) (String c (a ++ p)) ||
            strstr (a ++ p) (String "." e) = false).
    rewrite IH by exact H2. rewrite orb_false_r. cbn [String.prefix] in H1 |- *.
    destruct (ascii_dec "." c); [|reflexivity].
    apply prefix_app_nodot; assumption.
Qed.

(** C9 (amended): let [filename] be the expansion of the pattern with the
    frame number, cut by [snprintf] to at most 511 characters, and [ext]
    be [".yuv"] in fast mode and [".png"] otherwise.  The worker writes
    [filename] when it contains [ext], and otherwise [filename ++ ext]
    cut again to 511 characters; the written path has at most 511
    characters.  When [filename] contains [ext] or has at most 507
    characters, the path is [filename] or [filename ++ ext] and contains
    [ext]; when it has 508 to 511 characters and no [ext], only the first
    [511 - length] (fewer than 4) characters of [ext] are appended and
    the path does not contain [ext]. *)
Theorem saver_filename_ext (fast : bool) (pattern : string) (n : Z) :
  let filename := snprintf512 (format_int pattern n) in
  let ext := if fast then ".yuv" else ".png" in
  (String.length filename <= 511)%nat /\
  saver_filename fast pattern n =
    (if strstr filename ext then filename else snprintf512 (filename ++ ext)) /\
  (String.length (saver_filename fast pattern n) <= 511)%nat /\
  (strstr filename ext = true \/ (String.length filename <= 507)%nat ->
   saver_filename fast pattern n =
     (if strstr filename ext then filename else filename ++ ext) /\
   strstr (saver_filename fast pattern n) ext = true) /\
  (strstr filename ext = false -> (507 < String.length filename)%nat ->
   saver_filename fast pattern n =
     filename ++ substring 0 (511 - String.length filename) ext /\
   (511 - String.length filename < 4)%nat /\
   strstr (saver_filename fast pattern n) ext = false).
Proof.
  intros filename ext.
  assert (Hf : (String.length filename <= 511)%nat) by apply substring_0_le.
  assert (Hl : String.length ext = 4%nat) by (unfold ext; destruct fast; reflexivity).
  assert (Heq : saver_filename fast pattern n =
    (if strstr filename ext then filename else snprintf512 (filename ++ ext)))
    by reflexivity.
  split; [exact Hf|]. split; [exact Heq|]. rewrite Heq.
  split; [destruct (strstr filename ext); [exact Hf|apply substring_0_le]|].
  split.
  - intros H. destruct (strstr filename ext) eqn:Hs.
    + split; [reflexivity|exact Hs].
    + destruct H as [H|H]; [discriminate H|].
      unfold snprintf512.
      rewrite substring_0_all by (rewrite string_length_app; lia).
      split; [reflexivity|]. apply strstr_app_r.
  - intros Hs Hlong. rewrite Hs. unfold snprintf512.
    rewrite substring_0_app by exact Hf.
    split; [reflexivity|]. split; [lia|].
    assert (Hk : (511 - String.length filename < 4)%nat) by lia.
    revert Hk. generalize (511 - String.length filename)%nat. intros k Hk.
    unfold ext in *. destruct fast;
      (apply strstr_app_cut; [cbn; repeat (apply List.Forall_cons; [discriminate|]); apply List.Forall_nil
                             | eapply Nat.le_lt_trans; [apply substring_0_le | simpl; lia]
                             | destruct k; reflexivity
                             | exact Hs]).
Qed.

Lemma saver_filename_ext_witness :
  strstr (saver_filename true "frame_%d" 7) ".yuv" = true /\
  strstr (saver_filename true long_pattern 5) ".yuv" = false.
Proof.
  destruct (saver_filename_ext true "frame_%d" 7) as (_ & _ & _ & H1 & _).
  destruct (saver_filename_ext true long_pattern 5) as (_ & _ & _ & _ & H2).
  split.
  - apply H1. right. vm_compute. lia.
  - apply H2; vm_compute; [reflexivity | lia].
Defined.

End FileNames.

(** ** C10: parse_frames_string *)

Lemma pf_loop_spec toks frames cnt written :
  (cnt <= 1024)%nat -> written = seq 0 cnt ->
  let '(fs, cnt', written') := pf_loop toks frames cnt written in
  cnt' = Nat.min 1024 (cnt + length toks) /\ written' = seq 0 cnt'.
Proof.
  revert frames cnt written.
  induction toks as [|t toks IH]; intros frames cnt written Hc Hw; cbn [pf_loop length].
  - split; [lia|exact Hw].
  - destruct (Nat.ltb_spec cnt 1024) as [Hlt|Hge].
    + specialize (IH (<[cnt := atoi t]> frames) (S cnt) (written ++ [cnt])
                    ltac:(lia) ltac:(rewrite Hw, seq_S; reflexivity)).
      destruct (pf_loop toks _ _ _) as [[fs cnt'] written'].
      destruct IH as [-> ->]. split; [lia|reflexivity].
    + split; [lia|exact Hw].
Qed.

(** Below the [temp] bound, [parse_frames_string] keeps the first 1024
    tokens: it writes the indices [0 .. count-1] of [frames] in order,
    [count = min 1024 (number of tokens)], and the result is nonzero
    exactly when [count > 0]. *)
Lemma parse_frames_short (str : string) (frames : list Z) :
  (String.length str < 1024)%nat ->
  exists r, parse_frames_string str frames = Some r /\
    pf_count r = Z.of_nat (Nat.min 1024 (length (strtok_commas str))) /\
    pf_written r = seq 0 (Z.to_nat (pf_count r)) /\
    (pf_ret r <> 0 <-> 0 < pf_count r).
Proof.
  intros Hl. unfold parse_frames_string.
  destruct (Nat.leb_spec 1024 (String.length str)) as [|_]; [lia|].
  pose proof (pf_loop_spec (strtok_commas str) frames 0 [] ltac:(lia) eq_refl) as H.
  destruct (pf_loop (strtok_commas str) frames 0 []) as [[fs cnt] written].
  destruct H as [Hc Hw]. eexists. split; [reflexivity|]. simpl.
  split; [rewrite Hc; reflexivity|]. split; [rewrite Nat2Z.id; exact Hw|].
  destruct (Nat.ltb_spec 0 cnt); split; intros; lia.
Qed.

(** C10: for the 1024-character argument ["1,1,...,1,"] (512 tokens,
    far below the 1024-token bound), [strcpy] into [char temp[1024]]
    writes 1025 bytes: the call has no defined result, for every content
    of the [frames] array. *)
Theorem parse_frames_overflow :
  String.length long_frames_arg = 1024%nat /\
  length (strtok_commas long_frames_arg) = 512%nat /\
  forall frames, parse_frames_string long_frames_arg frames = None.
Proof.
  assert (Hl : String.length long_frames_arg = 1024%nat) by (vm_compute; reflexivity).
  split; [exact Hl|]. split; [vm_compute; reflexivity|].
  intros frames. unfold parse_frames_string. rewrite Hl. reflexivity.
Qed.

(* ================================================================== *)
(** * Further properties of the code *)

(** ** Target selection *)

Lemma range_loop_past fuel f e stp : e < f -> range_loop fuel f e stp = [].
Proof. intros H. destruct fuel; simpl; [reflexivity|]. destruct (Z.leb_spec f e); [lia|reflexivity]. Qed.

Lemma range_loop_closed fuel f e stp :
  0 < stp -> f <= e -> (Z.to_nat ((e - f) / stp) < fuel)%nat ->
  range_loop fuel f e stp =
    map (fun i => f + Z.of_nat i * stp) (seq 0 (S (Z.to_nat ((e - f) / stp)))).
Proof.
  intros Hs. revert f. induction fuel as [|n IH]; intros f Hf Hn; [lia|].
  cbn [range_loop]. destruct (Z.leb_spec f e) as [_|]; [|lia].
  destruct (Z.leb_spec (f + stp) e) as [Hle|Hgt].
  - assert (Hq : (e - f) / stp = (e - (f + stp)) / stp + 1).
    { replace (e - f) with ((e - (f + stp)) + 1 * stp) by lia.
      rewrite Z.div_add by lia. reflexivity. }
    assert (H0 : 0 <= (e - (f + stp)) / stp) by (apply Z.div_pos; lia).
    rewrite IH by (lia || (rewrite Hq in Hn; lia)).
    rewrite Hq. replace (Z.to_nat ((e - (f + stp)) / stp + 1))
      with (S (Z.to_nat ((e - (f + stp)) / stp))) by lia.
    set (k := Z.to_nat ((e - (f + stp)) / stp)).
    change (seq 0 (S (S k))) with (0%nat :: seq 1 (S k)). cbn [map].
    f_equal; [lia|].
    rewrite <- seq_shift, map_map. apply map_ext. intros i. lia.
  - rewrite range_loop_past by lia.
    assert (Hq : (e - f) / stp = 0) by (apply Z.div_small; lia).
    rewrite Hq. simpl. f_equal. lia.
Qed.

Lemma frames_to_extract_range_model (cfg : Config) (s e : Z) :
  frame_count cfg <= 0 -> 0 < step cfg -> s <= e ->
  let n := S (Z.to_nat ((e - s) / step cfg)) in
  frames_to_extract cfg s e =
    if 4096 <? Z.of_nat n then None
    else Some (map (fun i => s + Z.of_nat i * step cfg) (seq 0 n)).
Proof.
  intros Hfc Hst Hse n. unfold frames_to_extract.
  destruct (Z.ltb_spec 0 (frame_count cfg)) as [|_]; [lia|].
  destruct (Z.leb_spec s e) as [_|]; [|lia].
  destruct (Z.leb_spec (step cfg) 0) as [|_]; [lia|]. cbn [andb].
  assert (H0 : 0 <= (e - s) / step cfg) by (apply Z.div_pos; lia).
  assert (Hle : (e - s) / step cfg <= e - s).
  { apply Z.div_le_upper_bound; [lia|]. nia. }
  rewrite range_loop_closed by lia. rewrite length_map, length_seq.
  reflexivity.
Qed.

(** X2: in range mode ([frame_count <= 0]) with a positive [step],
    [start_frame <= end_frame] and [end_frame + step] within an [int]
    (so that no [f += step] of the loop overflows), the targets are
    [start_frame], [start_frame + step], ... up to [end_frame], that is
    [(end - start) / step + 1] frames; when that is more than 4096 the
    loop writes past [frames_to_extract[4096]] ([None]). *)
Theorem frames_to_extract_range (cfg : Config) (s e : Z) :
  frame_count cfg <= 0 -> 0 < step cfg -> s <= e -> e + step cfg <= INT_MAX ->
  let n := S (Z.to_nat ((e - s) / step cfg)) in
  frames_to_extract cfg s e =
    if 4096 <? Z.of_nat n then None
    else Some (map (fun i => s + Z.of_nat i * step cfg) (seq 0 n)).
Proof.
  intros Hfc Hst Hse _. apply frames_to_extract_range_model; assumption.
Qed.

Lemma frame_bounds_range ttf cfg total :
  use_time cfg = false -> use_time_range cfg = false ->
  cfg_start_frame cfg <= 0 -> cfg_end_frame cfg <= 0 ->
  frame_bounds ttf cfg total = (0, total - 1).
Proof.
  intros Ht Hr Hs He. unfold frame_bounds. rewrite Ht, Hr.
  destruct (Z.ltb_spec 0 (cfg_start_frame cfg)); [lia|].
  destruct (Z.ltb_spec 0 (cfg_end_frame cfg)); [lia|]. simpl.
  destruct (Z.leb_spec total (total - 1)); [lia|]. reflexivity.
Qed.

Lemma main_reaches_extract {Frame} (env : Env Frame) (cfg : Config) total :
  (ytdl_download cfg && negb (ytdl_ok env)) = false ->
  input_given env = true -> audio_only cfg = false ->
  open_ok env = true -> video_stream_idx env <> -1 -> total_of env = Some total ->
  main env cfg = main_extract env cfg total.
Proof.
  intros Hy Hi Ha Ho Hv Ht. unfold main. rewrite Hy, Hi, Ha, Ho, Ht. cbn [negb].
  destruct (Z.eqb_spec (video_stream_idx env) (-1)); [contradiction|reflexivity].
Qed.

(** X3: in a run past the setup checks (any requested [-ytdl] download
    succeeded, an input given, not [-audio-only], the input opened, a
    video stream, [total_frames] frames), with no [-frame]/[-frames], no
    time and no [-range], [main] selects every frame of the video with
    the step; when that gives more than 4096 targets (e.g. step 1 on a
    video of more than 4096 frames) the selection loop writes past
    [frames_to_extract[4096]], at [f = 4096 * step <= total_frames - 1]
    before any overflow of [f], and the run has no defined behaviour
    ([None]). *)
Theorem main_range_overflow {Frame} (env : Env Frame) (cfg : Config) total :
  (ytdl_download cfg && negb (ytdl_ok env)) = false ->
  input_given env = true -> audio_only cfg = false ->
  open_ok env = true -> video_stream_idx env <> -1 -> total_of env = Some total ->
  total <= INT_MAX ->
  frame_count cfg <= 0 -> use_time cfg = false -> use_time_range cfg = false ->
  cfg_start_frame cfg <= 0 -> cfg_end_frame cfg <= 0 ->
  0 < step cfg -> 4096 <= (total - 1) / step cfg ->
  main env cfg = None.
Proof.
  intros Hy Hi Ha Ho Hv Ht _ Hfc Hut Hur Hs He Hst Hbig.
  rewrite (main_reaches_extract env cfg total) by assumption.
  unfold main_extract. rewrite frame_bounds_range by assumption.
  assert (Hpos : 0 <= total - 1).
  { pose proof (Z.mul_div_le (total - 1) (step cfg) Hst). nia. }
  rewrite frames_to_extract_range_model by lia.
  destruct (Z.ltb_spec 4096 (Z.of_nat (S (Z.to_nat ((total - 1 - 0) / step cfg)))));
    [reflexivity|].
  replace (total - 1 - 0) with (total - 1) in * by lia. lia.
Qed.

(** X4: in a run past the setup checks (as in X3), a [-time] that
    converts to a frame at or past the end of the video
    ([total_frames <= frame]) selects no frame, whatever [-frames] says:
    [end_frame] is clamped to [total_frames - 1] below [start_frame], and
    [main] stops with "No frames to extract" and status 1. *)
Theorem main_time_past_end {Frame} (env : Env Frame) (cfg : Config) total :
  (ytdl_download cfg && negb (ytdl_ok env)) = false ->
  input_given env = true -> audio_only cfg = false ->
  open_ok env = true -> video_stream_idx env <> -1 -> total_of env = Some total ->
  use_time cfg = true -> total <= ttf env (time_str cfg) ->
  main env cfg = Some ([], 1).
Proof.
  intros Hy Hi Ha Ho Hv Ht Hu Hpast.
  rewrite (main_reaches_extract env cfg total) by assumption.
  unfold main_extract, frame_bounds. rewrite Hu.
  set (t := ttf env (time_str cfg)) in *.
  assert (Hse : (if t <? 0 then 0 else t) > (if total <=? t then total - 1 else t)).
  { destruct (Z.ltb_spec t 0), (Z.leb_spec total t); lia. }
  revert Hse.
  generalize (if t <? 0 then 0 else t) (if total <=? t then total - 1 else t).
  intros s e Hse. cbn beta iota.
  assert (Hf : frames_to_extract cfg s e = Some []).
  { unfold frames_to_extract. destruct (0 <? frame_count cfg).
    - f_equal. generalize (firstn (Z.to_nat (frame_count cfg)) (cfg_frames cfg)).
      intros l. induction l as [|x l IH]; [reflexivity|]. simpl.
      destruct (Z.leb_spec s x), (Z.leb_spec x e); simpl; try lia; exact IH.
    - destruct (Z.leb_spec s e); [lia|]. simpl.
      rewrite range_loop_past by lia. reflexivity. }
  rewrite Hf. reflexivity.
Qed.

(** ** progress_finish and the bar *)

Section ProgressExtra.

Local Open Scope Q_scope.

(** X5: when [0 <= frames_processed <= total_frames], [progress_finish]
    brings [frames_processed] to [total_frames] and always renders,
    whatever the time since the last render; with [total_frames > 0]
    the bar is at 100%, and when the rate is positive the computed
    remaining time is 0, so no ETA is printed. *)
Theorem progress_finish_completes (pt : ProgressTracker) (t : Q) :
  (0 <= frames_processed pt <= pt_total_frames pt)%Z ->
  (pt_total_frames pt <= INT_MAX)%Z ->
  let '(pt', r) := progress_finish pt t in
  frames_processed pt' = pt_total_frames pt /\
  exists rv, r = Some rv /\ rv = render_values pt' t /\
    ((0 < pt_total_frames pt)%Z -> percentage rv == 1) /\
    ((0 < pt_total_frames pt)%Z -> 1 # 1000 < t ->
       exists z, eta rv = Some z /\ z == 0).
Proof.
  intros Hp Hmax. unfold progress_finish.
  rewrite (wrap32_small (pt_total_frames pt - frames_processed pt))
    by (unfold INT_MAX in *; lia).
  destruct (progress_update pt (pt_total_frames pt - frames_processed pt) 0 t)
    as [pt' r] eqn:E.
  pose proof (progress_update_counter pt (pt_total_frames pt - frames_processed pt) 0 t)
    as [Ht Hf].
  rewrite E in Ht, Hf. cbn [fst] in Ht, Hf.
  replace (frames_processed pt + (pt_total_frames pt - frames_processed pt))%Z
    with (pt_total_frames pt) in Hf by lia.
  rewrite wrap32_small in Hf by (unfold INT_MAX in *; lia).
  rewrite Z.ltb_irrefl in Hf.
  assert (Hr : exists rv, r = Some rv).
  { revert E. unfold progress_update.
    rewrite wrap32_small by (unfold INT_MAX in *; lia).
    replace (frames_processed pt + (pt_total_frames pt - frames_processed pt))%Z
      with (pt_total_frames pt) by lia.
    rewrite Z.ltb_irrefl.
    destruct (Qlt_le_dec _ _); [rewrite Z.ltb_irrefl|];
      intros H; inversion H; eexists; reflexivity. }
  destruct Hr as [rv ->].
  pose proof (progress_update_render pt pt' _ _ _ rv E) as Hrv.
  split; [exact Hf|]. exists rv. split; [reflexivity|]. split; [exact Hrv|].
  assert (Hpc : (0 < pt_total_frames pt)%Z -> percentage rv == 1).
  { intros Hpos. subst rv. unfold render_values. rewrite Ht, Hf.
    destruct (Z.ltb_spec 0 (pt_total_frames pt)) as [_|]; [|lia]. cbn [percentage].
    assert (Hone : inject_Z (pt_total_frames pt) / inject_Z (pt_total_frames pt) == 1).
    { apply Qmult_inv_r. intros Hz. change 0 with (inject_Z 0) in Hz.
      apply (proj1 (inject_Z_injective _ _)) in Hz. lia. }
    destruct (Qlt_le_dec 1 _) as [Hlt|]; [rewrite Hone in Hlt; apply Qlt_irrefl in Hlt; contradiction|].
    exact Hone. }
  split; [exact Hpc|].
  intros Hpos Htime. subst rv. unfold render_values. rewrite Ht, Hf.
  cbn [eta percentage frames_per_sec].
  destruct (Z.ltb_spec 0 (pt_total_frames pt)) as [_|]; [|lia].
  set (p0 := inject_Z (pt_total_frames pt) / inject_Z (pt_total_frames pt)).
  assert (Hp0 : p0 == 1).
  { unfold p0. apply Qmult_inv_r. intros Hz. change 0 with (inject_Z 0) in Hz.
    apply (proj1 (inject_Z_injective _ _)) in Hz. lia. }
  assert (Hp1 : (if Qlt_le_dec 1 p0 then 1 else p0) == 1).
  { destruct (Qlt_le_dec 1 p0); [reflexivity|exact Hp0]. }
  destruct (Qlt_le_dec (1 # 100) (if Qlt_le_dec 1 p0 then 1 else p0)) as [_|Hle];
    [|rewrite Hp1 in Hle; exfalso; apply (Qle_not_lt _ _ Hle); reflexivity].
  destruct (Qlt_le_dec (1 # 1000) t) as [_|]; [|exfalso; apply (Qlt_not_le _ _ Htime); assumption].
  assert (Hfps : 0 < inject_Z (pt_total_frames pt) / t).
  { apply Qlt_shift_div_l; [apply (Qlt_trans _ (1 # 1000)); [reflexivity|exact Htime]|].
    rewrite Qmult_0_l. change 0 with (inject_Z 0). rewrite <- Zlt_Qlt. exact Hpos. }
  destruct (Qlt_le_dec 0 _) as [_|Hn]; [|exfalso; apply (Qlt_not_le _ _ Hfps Hn)].
  eexists. split; [reflexivity|]. rewrite Z.sub_diag. unfold Qdiv. apply Qmult_0_l.
Qed.

End ProgressExtra.

Section ProgressBar.

Local Open Scope string_scope.

Lemma string_app_nil_r (a : string) : a ++ "" = a.
Proof. induction a as [|c a IH]; simpl; [reflexivity|]. rewrite IH. reflexivity. Qed.

Lemma bar_from_past (i : Z) (n : nat) (pos : Z) :
  (pos < i)%Z -> bar_from i n pos = spaces " " n.
Proof.
  revert i. induction n as [|n IH]; intros i Hi; [reflexivity|]. simpl.
  destruct (Z.ltb_spec i pos); [lia|]. destruct (Z.eqb_spec i pos); [lia|].
  rewrite IH by lia. reflexivity.
Qed.

Lemma bar_from_before (i : Z) (n : nat) (pos : Z) :
  (i + Z.of_nat n <= pos)%Z -> bar_from i n pos = spaces "=" n.
Proof.
  revert i. induction n as [|n IH]; intros i Hi; [reflexivity|]. simpl.
  destruct (Z.ltb_spec i pos); [|lia]. rewrite IH by lia. reflexivity.
Qed.

Lemma bar_from_app (i : Z) (a b : nat) (pos : Z) :
  bar_from i (a + b) pos = bar_from i a pos ++ bar_from (i + Z.of_nat a) b pos.
Proof.
  revert i. induction a as [|a IH]; intros i; simpl.
  - rewrite Z.add_0_r. reflexivity.
  - rewrite IH. replace (i + Z.of_nat (S a))%Z with (i + 1 + Z.of_nat a)%Z by lia.
    reflexivity.
Qed.

Lemma render_percentage_bounds (pt : ProgressTracker) (t : Q) :
  (0 <= frames_processed pt)%Z ->
  (0 <= percentage (render_values pt t) <= 1)%Q.
Proof.
  intros Hp. unfold render_values. cbn [percentage].
  destruct (Z.ltb_spec 0 (pt_total_frames pt)) as [Ht|Ht].
  - assert (H0 : (0 <= inject_Z (frames_processed pt) / inject_Z (pt_total_frames pt))%Q).
    { apply Qle_shift_div_l.
      - change 0%Q with (inject_Z 0). rewrite <- Zlt_Qlt. exact Ht.
      - rewrite Qmult_0_l. change 0%Q with (inject_Z 0). rewrite <- Zle_Qle. exact Hp. }
    destruct (Qlt_le_dec 1 _) as [|Hle]; split; try assumption; discriminate.
  - destruct (Qlt_le_dec 1 0) as [H|]; [discriminate H|]. split; discriminate.
Qed.

(** X6: every rendered bar has exactly [width] columns: with
    [pos = (int)(width * percentage)], [0 <= pos <= width], the bar is
    [pos] ['='] followed, when [pos < width], by one ['>'] and spaces;
    a bar at 100% is all ['=']. *)
Theorem progress_bar_shape (pt : ProgressTracker) (t : Q) :
  (0 <= frames_processed pt)%Z -> (0 <= pt_width pt)%Z ->
  let k := bar_pos (pt_width pt) (percentage (render_values pt t)) in
  (0 <= k <= pt_width pt)%Z /\
  String.length (progress_bar (pt_width pt) k) = Z.to_nat (pt_width pt) /\
  progress_bar (pt_width pt) k =
    spaces "=" (Z.to_nat k) ++
    (if (k <? pt_width pt)%Z
     then String ">" (spaces " " (Z.to_nat (pt_width pt - k - 1))) else "").
Proof.
  intros Hp Hw k.
  destruct (render_percentage_bounds pt t Hp) as [Hp0 Hp1].
  set (p := percentage (render_values pt t)) in *.
  set (w := pt_width pt) in *.
  assert (Hx0 : (0 <= inject_Z w * p)%Q).
  { apply Qmult_le_0_compat; [|exact Hp0].
    change 0%Q with (inject_Z 0). rewrite <- Zle_Qle. exact Hw. }
  assert (Hx1 : (inject_Z w * p <= inject_Z w)%Q).
  { rewrite Qmult_comm. rewrite <- (Qmult_1_l (inject_Z w)) at 2.
    apply Qmult_le_compat_r; [exact Hp1|].
    change 0%Q with (inject_Z 0). rewrite <- Zle_Qle. exact Hw. }
  assert (Hk : (0 <= k <= w)%Z).
  { unfold k, bar_pos, trunc_Q. fold p. fold w.
    replace (Qle_bool 0 (inject_Z w * p)) with true
      by (symmetry; apply Qle_bool_iff; exact Hx0).
    split.
    - change 0%Z with (Qfloor 0). apply Qfloor_resp_le. exact Hx0.
    - rewrite Zle_Qle. eapply Qle_trans; [apply Qfloor_le|exact Hx1]. }
  assert (Hshape : progress_bar w k =
    spaces "=" (Z.to_nat k) ++
    (if (k <? w)%Z then String ">" (spaces " " (Z.to_nat (w - k - 1))) else "")).
  { unfold progress_bar.
    destruct (Z.ltb_spec k w).
    - replace (Z.to_nat w) with (Z.to_nat k + S (Z.to_nat (w - k - 1)))%nat by lia.
      rewrite bar_from_app, bar_from_before by lia. f_equal. simpl.
      replace (0 + Z.of_nat (Z.to_nat k))%Z with k by lia.
      rewrite Z.ltb_irrefl, Z.eqb_refl, bar_from_past by lia. reflexivity.
    - replace (Z.to_nat w) with (Z.to_nat k) by lia.
      rewrite bar_from_before by lia. rewrite string_app_nil_r. reflexivity. }
  split; [exact Hk|]. split; [|exact Hshape].
  rewrite Hshape.
  assert (Hsp : forall c n, String.length (spaces c n) = n)
    by (intros c n; induction n; simpl; congruence).
  assert (Happ : forall a b : string,
            String.length (a ++ b) = (String.length a + String.length b)%nat)
    by (intros a b; induction a; simpl; congruence).
  rewrite Happ, Hsp. destruct (Z.ltb_spec k w); simpl; [rewrite Hsp|]; lia.
Qed.

End ProgressBar.

(** ** save_yuv_frame *)

Section Yuv.

Context {A : Type}.

Lemma lookup_map_option {B C} (f : B -> C) (l : list B) (i : nat) :
  map f l !! i = option_map f (l !! i).
Proof. revert i. induction l as [|x l IH]; intros [|i]; simpl; auto. Qed.

Lemma lookup_zseq (n : Z) (i : nat) :
  (i < Z.to_nat n)%nat -> zseq n !! i = Some (Z.of_nat i).
Proof.
  intros Hi. unfold zseq. rewrite lookup_map_option, lookup_seq_lt by exact Hi.
  reflexivity.
Qed.

Lemma concat_rows_lookup (L : list (list A)) (c i x : nat) (row : list A) :
  Forall (fun l => length l = c) L -> L !! i = Some row -> (x < c)%nat ->
  concat L !! (i * c + x)%nat = row !! x.
Proof.
  intros HL. revert i. induction HL as [|l L Hl HL IH]; intros i Hi Hx;
    [discriminate Hi|].
  destruct i as [|i]; simpl in Hi |- *.
  - injection Hi as <-. rewrite lookup_app_l by lia. reflexivity.
  - rewrite lookup_app_r by lia.
    replace (c + i * c + x - length l)%nat with (i * c + x)%nat by lia.
    apply IH; assumption.
Qed.

Lemma length_concat_rows (L : list (list A)) (c : nat) :
  Forall (fun l => length l = c) L -> length (concat L) = (length L * c)%nat.
Proof.
  induction 1 as [|l L Hl _ IH]; [reflexivity|]. simpl.
  rewrite length_app, Hl, IH. lia.
Qed.

Lemma plane_bytes_spec (d : Z -> A) (ls rows cols : Z) :
  0 <= rows -> 0 <= cols ->
  exists L, plane_bytes d ls rows cols = Some L /\
    length L = (Z.to_nat rows * Z.to_nat cols)%nat /\
    forall y x, 0 <= y < rows -> 0 <= x < cols ->
      L !! Z.to_nat (y * cols + x) = Some (d (y * ls + x)).
Proof.
  intros Hr Hc. unfold plane_bytes.
  destruct (Z.ltb_spec cols 0); [lia|]. rewrite andb_false_r.
  set (row := fun y => map (fun x => d (y * ls + x)) (zseq cols)).
  assert (Hrows : Forall (fun l => length l = Z.to_nat cols) (map row (zseq rows))).
  { apply List.Forall_forall. intros l Hl. apply in_map_iff in Hl as (y & <- & _).
    unfold row, zseq. rewrite !length_map, length_seq. reflexivity. }
  eexists. split; [reflexivity|]. split.
  - rewrite (length_concat_rows _ (Z.to_nat cols) Hrows).
    unfold zseq. rewrite !length_map, length_seq. lia.
  - intros y x Hy Hx.
    rewrite Z2Nat.inj_add, Z2Nat.inj_mul by nia.
    assert (Hrow : map row (zseq rows) !! Z.to_nat y = Some (row y)).
    { rewrite lookup_map_option, lookup_zseq by lia. cbn [option_map].
      rewrite Z2Nat.id by lia. reflexivity. }
    rewrite (concat_rows_lookup _ _ _ _ _ Hrows Hrow) by lia.
    unfold row. rewrite lookup_map_option, lookup_zseq by lia. simpl.
    f_equal. f_equal. lia.
Qed.

(** X7: when [fopen] succeeds and [width, height >= 0], [save_yuv_frame]
    writes a planar YUV 4:2:0 file of [w*h + 2*(h/2)*(w/2)] bytes (C
    divisions): the [h] rows of [w] bytes of plane 0 read at
    [y*linesize[0] + x], then the [h/2] rows of [w/2] bytes of plane 1,
    then those of plane 2; the row padding beyond [width] is never
    written. *)
Theorem save_yuv_frame_layout (data : nat -> Z -> A) (linesize : nat -> Z) (w h : Z) :
  0 <= w -> 0 <= h ->
  let cw := Z.quot w 2 in
  let ch := Z.quot h 2 in
  exists bytes, save_yuv_frame true data linesize w h = YuvFile bytes /\
    Z.of_nat (length bytes) = w * h + 2 * (ch * cw) /\
    (forall y x, 0 <= y < h -> 0 <= x < w ->
       bytes !! Z.to_nat (y * w + x) = Some (data 0%nat (y * linesize 0%nat + x))) /\
    (forall y x, 0 <= y < ch -> 0 <= x < cw ->
       bytes !! Z.to_nat (w * h + (y * cw + x)) =
         Some (data 1%nat (y * linesize 1%nat + x))) /\
    (forall y x, 0 <= y < ch -> 0 <= x < cw ->
       bytes !! Z.to_nat (w * h + ch * cw + (y * cw + x)) =
         Some (data 2%nat (y * linesize 2%nat + x))).
Proof.
  intros Hw Hh cw ch.
  assert (Hcw : 0 <= cw) by (apply Z.quot_pos; lia).
  assert (Hch : 0 <= ch) by (apply Z.quot_pos; lia).
  destruct (plane_bytes_spec (data 0%nat) (linesize 0%nat) h w Hh Hw)
    as (Y & HY & HYl & HYg).
  destruct (plane_bytes_spec (data 1%nat) (linesize 1%nat) ch cw Hch Hcw)
    as (U & HU & HUl & HUg).
  destruct (plane_bytes_spec (data 2%nat) (linesize 2%nat) ch cw Hch Hcw)
    as (V & HV & HVl & HVg).
  exists (Y ++ U ++ V). unfold save_yuv_frame. cbn [negb].
  fold cw ch. rewrite HY, HU, HV. split; [reflexivity|].
  rewrite !length_app, HYl, HUl, HVl. split; [lia|].
  split; [|split].
  - intros y x Hy Hx. rewrite lookup_app_l by nia. apply HYg; lia.
  - intros y x Hy Hx. rewrite lookup_app_r by lia.
    replace (Z.to_nat (w * h + (y * cw + x)) - length Y)%nat
      with (Z.to_nat (y * cw + x)) by nia.
    rewrite lookup_app_l by nia. apply HUg; lia.
  - intros y x Hy Hx. rewrite lookup_app_r by nia.
    replace (Z.to_nat (w * h + ch * cw + (y * cw + x)) - length Y)%nat
      with (length U + Z.to_nat (y * cw + x))%nat by nia.
    rewrite lookup_app_r by lia.
    replace (length U + Z.to_nat (y * cw + x) - length U)%nat
      with (Z.to_nat (y * cw + x)) by lia.
    apply HVg; lia.
Qed.

End Yuv.

(** ** The [-frames] tokens *)

Section Tokens.
Local Open Scope string_scope.

Lemma sol_snoc (l : list ascii) (c : ascii) (f : string) :
  string_of_list_ascii (l ++ [c]) ++ f = string_of_list_ascii l ++ String c f.
Proof. induction l as [|a l IH]; simpl; [reflexivity|now rewrite IH]. Qed.

Lemma sol_snoc_nil (l : list ascii) (c : ascii) :
  string_of_list_ascii (l ++ [c]) = string_of_list_ascii l ++ String c "".
Proof. rewrite <- sol_snoc. symmetry. apply string_app_nil_r. Qed.

Lemma nonempty_app_cons (x : string) (c : ascii) (f : string) :
  nonempty_field (x ++ String c f) = true.
Proof. destruct x; reflexivity. Qed.

Lemma comma_fields_cons (s : string) : exists f fs, comma_fields s = f :: fs.
Proof.
  induction s as [|c r [f [fs IH]]]; simpl; [eauto|].
  rewrite IH. destruct (ascii_dec c ","); eauto.
Qed.

Lemma tok_go_fields (s : string) (cur : list ascii) :
  tok_go s cur =
  List.filter nonempty_field
    (match comma_fields s with
     | f :: fs => (string_of_list_ascii (rev cur) ++ f) :: fs
     | [] => [] end).
Proof.
  revert cur. induction s as [|c r IH]; intros cur; simpl.
  - destruct cur as [|a cur]; [reflexivity|]. simpl.
    rewrite string_app_nil_r, sol_snoc_nil. simpl.
    rewrite nonempty_app_cons. reflexivity.
  - destruct (comma_fields_cons r) as [f [fs E]]. rewrite E in *.
    destruct (ascii_dec c ",").
    + rewrite (IH []). simpl.
      destruct cur as [|a cur]; [reflexivity|]. simpl.
      rewrite string_app_nil_r, sol_snoc_nil, nonempty_app_cons. reflexivity.
    + rewrite (IH (c :: cur)). simpl. rewrite sol_snoc. reflexivity.
Qed.

Lemma tok_go_count (s : string) (cur : list ascii) :
  (2 * length (tok_go s cur) <= String.length s + 1 +
     match cur with [] => 0 | _ => 1 end)%nat.
Proof.
  revert cur. induction s as [|c r IH]; intros cur; simpl.
  - destruct cur; simpl; lia.
  - destruct (ascii_dec c ",").
    + pose proof (IH []) as H. simpl in H.
      destruct cur; simpl; lia.
    + pose proof (IH (c :: cur)) as H. simpl in H. destruct cur; lia.
Qed.

End Tokens.

Lemma pf_loop_frames toks frames cnt written :
  (cnt + length toks <= 1024)%nat -> (cnt + length toks <= length frames)%nat ->
  fst (fst (pf_loop toks frames cnt written)) =
  take cnt frames ++ map atoi toks ++ drop (cnt + length toks) frames.
Proof.
  revert frames cnt written.
  induction toks as [|t toks IH]; intros frames cnt written H1 H2; cbn [pf_loop length map] in *.
  - simpl. rewrite Nat.add_0_r, take_drop. reflexivity.
  - destruct (Nat.ltb_spec cnt 1024) as [_|]; [|lia].
    rewrite IH by (rewrite ?length_insert; lia).
    rewrite insert_take_drop by lia.
    assert (Ht : length (take cnt frames) = cnt) by (rewrite length_take; lia).
    rewrite take_app, (take_ge (take cnt frames)) by (rewrite Ht; lia). rewrite Ht, Nat.sub_succ_l, Nat.sub_diag by lia.
    rewrite drop_app, (drop_ge (take cnt frames)) by (rewrite Ht; lia). rewrite Ht.
    replace (S cnt + length toks - cnt)%nat with (S (length toks)) by lia.
    simpl. rewrite drop_drop, <- app_assoc.
    replace (S cnt + length toks)%nat with (cnt + S (length toks))%nat by lia.
    reflexivity.
Qed.

(** X8: for an argument shorter than [temp] whose tokens all convert by
    [atoi] to a value within [int] (so that no [atoi] overflows), the
    tokens are the non-empty comma-separated fields in order (empty
    fields are skipped), there are at most 512 of them, so the
    1024-entry cap is never reached: [frames] starts with [atoi] of each
    token, keeps its other entries, and [count] is the number of
    tokens. *)
Theorem parse_frames_fields (str : string) (frames : list Z) :
  (String.length str < 1024)%nat -> length frames = 1024%nat ->
  forallb (fun t => int_range (atoi t)) (strtok_commas str) = true ->
  strtok_commas str = List.filter nonempty_field (comma_fields str) /\
  (length (strtok_commas str) <= 512)%nat /\
  exists r, parse_frames_string str frames = Some r /\
    pf_frames r = map atoi (strtok_commas str) ++ drop (length (strtok_commas str)) frames /\
    pf_count r = Z.of_nat (length (strtok_commas str)).
Proof.
  intros Hl Hf _.
  assert (Ht : strtok_commas str = List.filter nonempty_field (comma_fields str)).
  { unfold strtok_commas. rewrite tok_go_fields.
    destruct (comma_fields_cons str) as [f [fs ->]]. reflexivity. }
  assert (Hn : (length (strtok_commas str) <= 512)%nat).
  { pose proof (tok_go_count str []) as H. simpl in H. unfold strtok_commas. lia. }
  split; [exact Ht|]. split; [exact Hn|].
  unfold parse_frames_string.
  destruct (Nat.leb_spec 1024 (String.length str)) as [|_]; [lia|].
  pose proof (pf_loop_spec (strtok_commas str) frames 0 [] ltac:(lia) eq_refl) as Hs.
  pose proof (pf_loop_frames (strtok_commas str) frames 0 [] ltac:(lia) ltac:(lia)) as Hfr.
  destruct (pf_loop (strtok_commas str) frames 0 []) as [[fs cnt] written].
  destruct Hs as [Hc _]. simpl in Hfr. eexists. split; [reflexivity|]. simpl.
  split; [exact Hfr|]. f_equal. lia.
Qed.

Lemma parse_frames_fields_witness :
  let str := "10,,x,20,"%string in
  let frames := repeat 7 1024 in
  (String.length str < 1024)%nat /\ length frames = 1024%nat /\
  forallb (fun t => int_range (atoi t)) (strtok_commas str) = true /\
  (strtok_commas str = List.filter nonempty_field (comma_fields str) /\
   (length (strtok_commas str) <= 512)%nat /\
   exists r, parse_frames_string str frames = Some r /\
     pf_frames r = map atoi (strtok_commas str) ++ drop (length (strtok_commas str)) frames /\
     pf_count r = Z.of_nat (length (strtok_commas str))).
Proof.
  intros str frames.
  assert (H1 : (String.length str < 1024)%nat) by (vm_compute; lia).
  assert (H2 : length frames = 1024%nat) by (vm_compute; reflexivity).
  assert (H3 : forallb (fun t => int_range (atoi t)) (strtok_commas str) = true)
    by (vm_compute; reflexivity).
  split; [exact H1|]. split; [exact H2|]. split; [exact H3|].
  exact (parse_frames_fields str frames H1 H2 H3).
Defined.

(** ** Witnesses *)

Lemma frames_to_extract_range_witness :
  frames_to_extract cfg_range 2 20 =
    Some (map (fun i => 2 + Z.of_nat i * 3) (seq 0 7)).
Proof.
  refine (frames_to_extract_range cfg_range 2 20 _ _ _ _);
    first [cbn; unfold INT_MAX; lia | vm_compute; first [reflexivity | discriminate | lia]].
Defined.

Lemma main_range_overflow_witness :
  main (mkEnv true true true 0 5000 None true [] (fun _ => 0) : Env nat)
       (mkConfig [] 0 0 0 1 false false "" "" "" false "frame_%d.png"
          false false false) = None.
Proof.
  refine (main_range_overflow _ _ 5000 _ _ _ _ _ _ _ _ _ _ _ _ _ _);
    first [cbn; unfold INT_MAX; lia | vm_compute; first [reflexivity | discriminate | lia]].
Defined.

Lemma main_time_past_end_witness :
  main (mkEnv true true true 0 100 None true [] (fun _ => 250) : Env nat)
       (mkConfig [10] 1 0 0 1 true false "00:00:10" "" "" false "frame_%d.png"
          false false false) = Some ([], 1).
Proof.
  refine (main_time_past_end _ _ 100 _ _ _ _ _ _ _ _);
    first [cbn; unfold INT_MAX; lia | vm_compute; first [reflexivity | discriminate | lia]].
Defined.

Lemma progress_finish_completes_witness :
  let '(pt', r) := progress_finish (mkProgress 10 3 0 50 0) 2 in
  frames_processed pt' = 10%Z /\
  exists rv, r = Some rv /\ rv = render_values pt' 2 /\
    ((0 < 10)%Z -> (percentage rv == 1)%Q) /\
    ((0 < 10)%Z -> (1 # 1000 < 2)%Q ->
       exists z, eta rv = Some z /\ (z == 0)%Q).
Proof.
  refine (progress_finish_completes (mkProgress 10 3 0 50 0) 2 _ _);
    first [cbn; unfold INT_MAX; lia | vm_compute; first [reflexivity | discriminate | lia]].
Defined.

Lemma progress_bar_shape_witness :
  let pt := mkProgress 10 4 0 50 0 in
  let k := bar_pos (pt_width pt) (percentage (render_values pt 1)) in
  (0 <= k <= pt_width pt)%Z /\
  String.length (progress_bar (pt_width pt) k) = Z.to_nat (pt_width pt) /\
  progress_bar (pt_width pt) k =
    (spaces "=" (Z.to_nat k) ++
    (if (k <? pt_width pt)%Z
     then String ">" (spaces " " (Z.to_nat (pt_width pt - k - 1))) else ""))%string.
Proof.
  refine (progress_bar_shape (mkProgress 10 4 0 50 0) 1 _ _);
    first [cbn; unfold INT_MAX; lia | vm_compute; first [reflexivity | discriminate | lia]].
Defined.

Lemma save_yuv_frame_layout_witness :
  exists bytes,
    save_yuv_frame true (fun p i => Z.of_nat p * 1000 + i) (fun _ => 8) 4 2
      = YuvFile bytes /\
    Z.of_nat (length bytes) = 4 * 2 + 2 * (Z.quot 2 2 * Z.quot 4 2) /\
    (forall y x, 0 <= y < 2 -> 0 <= x < 4 ->
       bytes !! Z.to_nat (y * 4 + x) = Some (0 * 1000 + (y * 8 + x))) /\
    (forall y x, 0 <= y < Z.quot 2 2 -> 0 <= x < Z.quot 4 2 ->
       bytes !! Z.to_nat (4 * 2 + (y * Z.quot 4 2 + x)) =
         Some (1 * 1000 + (y * 8 + x))) /\
    (forall y x, 0 <= y < Z.quot 2 2 -> 0 <= x < Z.quot 4 2 ->
       bytes !! Z.to_nat (4 * 2 + Z.quot 2 2 * Z.quot 4 2 + (y * Z.quot 4 2 + x)) =
         Some (2 * 1000 + (y * 8 + x))).
Proof.
  refine (save_yuv_frame_layout (fun p i => Z.of_nat p * 1000 + i) (fun _ => 8) 4 2 _ _);
    first [cbn; unfold INT_MAX; lia | vm_compute; first [reflexivity | discriminate | lia]].
Defined.

(** ** The command line *)

Lemma pf_loop_length toks frames cnt written :
  length (fst (fst (pf_loop toks frames cnt written))) = length frames.
Proof.
  revert frames cnt written.
  induction toks as [|t toks IH]; intros frames cnt written; cbn [pf_loop]; [reflexivity|].
  destruct (cnt <? 1024)%nat; [|reflexivity].
  rewrite IH, length_insert. reflexivity.
Qed.

Lemma parse_frames_string_bounds str frames p :
  parse_frames_string str frames = Some p ->
  0 <= pf_count p <= 1024 /\ length (pf_frames p) = length frames.
Proof.
  unfold parse_frames_string. intros H.
  destruct (1024 <=? String.length str)%nat; [discriminate|].
  pose proof (pf_loop_spec (strtok_commas str) frames 0 [] ltac:(lia) eq_refl) as Hs.
  pose proof (pf_loop_length (strtok_commas str) frames 0 []) as Hl.
  destruct (pf_loop (strtok_commas str) frames 0 []) as [[fs cnt] written].
  injection H as <-. destruct Hs as [Hc _]. cbn [pf_count pf_frames fst] in *. split; [lia|exact Hl].
Qed.

Module ArgsProofs.
Import Args.

Lemma args_inv_init : args_inv init_config.
Proof. unfold args_inv. cbn. repeat split; lia. Qed.

Ltac split_in H :=
  repeat match type of H with
  | context [if ?b then _ else _] => let E := fresh "E" in destruct b eqn:E
  | context [match ?x with [] => _ | _ :: _ => _ end] => destruct x
  | context [match ?x with Some _ => _ | None => _ end] =>
      let E := fresh "E" in destruct x eqn:E
  end.

Lemma parse_args_inv n : forall args c c',
  (length args <= n)%nat -> args_inv c ->
  parse_args args c = Some (ArgsDone c') -> args_inv c'.
Proof.
  induction n as [|n IH]; intros args c c' Hl Hi Hp.
  - destruct args; [|simpl in Hl; lia]. simpl in Hp. injection Hp as <-. exact Hi.
  - destruct args as [|a rest].
    { simpl in Hp. injection Hp as <-. exact Hi. }
    cbn [parse_args] in Hp. unfold strcpy_into in Hp. split_in Hp;
      try discriminate;
      refine (IH _ _ _ _ _ Hp); simpl in Hl |- *; try lia;
      unfold args_inv in *; cbn;
      repeat match goal with
      | E : parse_frames_string _ _ = Some _ |- _ =>
          apply parse_frames_string_bounds in E
      | E : (_ <? _) = true |- _ => apply Z.ltb_lt in E
      | E : (_ <? _) = false |- _ => apply Z.ltb_ge in E
      end;
      rewrite ?length_insert; intuition lia.
Qed.

Lemma bitrate_option_exact (format b : Z) :
  32 <= b <= 320 ->
  get_bitrate_option format b = ("-b:a " ++ dec b ++ "k")%string.
Proof.
  intros Hb. unfold get_bitrate_option.
  destruct (Z.leb_spec b 0) as [|_]; [lia|].
  apply substring_0_all.
  assert (Hall : forallb (fun k : nat =>
             (String.length ("-b:a " ++ dec (32 + Z.of_nat k) ++ "k") <=? 63)%nat)
             (seq 0 289) = true) by (vm_compute; reflexivity).
  rewrite forallb_forall in Hall.
  specialize (Hall (Z.to_nat (b - 32))).
  rewrite Nat.leb_le, Z2Nat.id in Hall by lia.
  replace (32 + (b - 32)) with b in Hall by lia.
  apply Hall, in_seq. lia.
Qed.

(** X9: whatever the arguments, when the loop of [main] finishes the
    bitrate lies in [32, 320] (every [-audio-bitrate] is clamped), the
    audio format is one of 0..3 (an unknown [-audio-format] name keeps
    the previous one), [frame_count] lies in [0, 1024], so the loops over
    [config.frames] stay in the array, and the FFmpeg bitrate option is
    ["-b:a <bitrate>k"] in full. *)
Theorem parse_args_bounds (args : list string) (c : Config) :
  parse_args args init_config = Some (ArgsDone c) ->
  32 <= audio_bitrate c <= 320 /\ 0 <= audio_format c <= 3 /\
  0 <= frame_count c <= 1024 /\ length (frames c) = 1024%nat /\
  get_bitrate_option (audio_format c) (audio_bitrate c) =
    ("-b:a " ++ dec (audio_bitrate c) ++ "k")%string.
Proof.
  intros H.
  destruct (parse_args_inv (length args) args init_config c (le_n _) args_inv_init H)
    as (Hb & Hf & Hc & Hl).
  repeat split; try lia.
  apply bitrate_option_exact. exact Hb.
Qed.

End ArgsProofs.

Lemma parse_args_bounds_witness :
  exists c,
    Args.parse_args ["-input"; "clip.mp4"; "-audio-bitrate"; "1000";
                     "-audio-format"; "flac"; "-frames"; "4,,8"]%string
      Args.init_config = Some (Args.ArgsDone c) /\
    (32 <= Args.audio_bitrate c <= 320 /\ 0 <= Args.audio_format c <= 3 /\
     0 <= Args.frame_count c <= 1024 /\ length (Args.frames c) = 1024%nat /\
     get_bitrate_option (Args.audio_format c) (Args.audio_bitrate c) =
       ("-b:a " ++ dec (Args.audio_bitrate c) ++ "k")%string).
Proof.
  eexists. split; [vm_compute; reflexivity|].
  apply ArgsProofs.parse_args_bounds with
    (args := ["-input"; "clip.mp4"; "-audio-bitrate"; "1000";
              "-audio-format"; "flac"; "-frames"; "4,,8"]%string).
  vm_compute. reflexivity.
Defined.

(** ** Time strings *)

Section TimeStrings.
Local Open Scope string_scope.

Variable strtod : string -> option (Q * string).

Lemma digit_cases (c : ascii) :
  digit_val c <> None ->
  c = "0"%char \/ c = "1"%char \/ c = "2"%char \/ c = "3"%char \/ c = "4"%char \/
  c = "5"%char \/ c = "6"%char \/ c = "7"%char \/ c = "8"%char \/ c = "9"%char.
Proof.
  destruct c as [[] [] [] [] [] [] [] []]; vm_compute; intros H;
    first [exfalso; apply H; reflexivity | intuition reflexivity].
Qed.

Lemma digits_prefix_app (ds rest : string) :
  all_digits ds = true -> no_digit_head rest ->
  digits_prefix (ds ++ rest) = (ds, rest).
Proof.
  induction ds as [|c r IH]; simpl; intros Hd Hr.
  - destruct rest as [|c r]; simpl in *; [reflexivity|]. rewrite Hr. reflexivity.
  - destruct (digit_val c); [|discriminate]. rewrite IH by assumption. reflexivity.
Qed.

Lemma scan_int_digits (ds rest : string) :
  ds <> "" -> all_digits ds = true -> no_digit_head rest ->
  scan_int (ds ++ rest) = Some (atoi_digits ds 0, rest).
Proof.
  intros Hne Hd Hr. destruct ds as [|c r]; [contradiction|].
  assert (Hc : digit_val c <> None) by (simpl in Hd; destruct (digit_val c); discriminate).
  unfold scan_int.
  assert (Hskip : skip_spaces (String c r ++ rest) = String c r ++ rest)
    by (destruct (digit_cases c Hc) as [->|[->|[->|[->|[->|[->|[->|[->|[->| ->]]]]]]]]];
        reflexivity).
  rewrite Hskip.
  destruct (digit_cases c Hc) as [->|[->|[->|[->|[->|[->|[->|[->|[->| ->]]]]]]]]];
    cbn [append];
    match goal with
    | |- context [digits_prefix (String ?c (r ++ rest))] =>
        change (String c (r ++ rest)) with (String c r ++ rest)
    end;
    rewrite (digits_prefix_app _ rest Hd Hr); reflexivity.
Qed.

Lemma scan_go_int f (ds rest : string) :
  ds <> "" -> all_digits ds = true -> no_digit_head rest ->
  scan_go strtod (SInt :: f) (ds ++ rest) = VInt (atoi_digits ds 0) :: scan_go strtod f rest.
Proof. intros H1 H2 H3. cbn [scan_go]. rewrite scan_int_digits by assumption. reflexivity. Qed.

Lemma scan_go_int_end f (ds : string) :
  ds <> "" -> all_digits ds = true ->
  scan_go strtod (SInt :: f) ds = VInt (atoi_digits ds 0) :: scan_go strtod f "".
Proof.
  intros H1 H2. rewrite <- (string_app_nil_r ds) at 1.
  apply scan_go_int; [exact H1|exact H2|exact I].
Qed.

Lemma scan_go_lit f c (r : string) :
  scan_go strtod (SLit c :: f) (String c "" ++ r) = scan_go strtod f r.
Proof. cbn. destruct (ascii_dec c c); [reflexivity|contradiction]. Qed.

Lemma scan_go_double f (s r : string) (q : Q) :
  strtod s = Some (q, r) ->
  scan_go strtod (SDouble :: f) s = VDouble q :: scan_go strtod f r.
Proof. intros H. cbn [scan_go]. rewrite H. reflexivity. Qed.

Ltac scan_step :=
  first
    [ rewrite scan_go_int by (first [assumption | reflexivity])
    | rewrite scan_go_int_end by assumption
    | rewrite scan_go_lit ].

(** X11: for a time of the form ["H:M:S"] or ["M:S"] (decimal digits),
    where [H*3600 + M*60 + S] fits in an [int] (then so do [H], [M], [S],
    every partial sum and [M*60 + S], all of them non-negative) and a
    non-negative [fps] keeps [(H*3600 + M*60 + S) * fps] below [2^31]
    (then both [(int)] casts are defined),
    [parse_time_to_frame] gives [(int)(seconds * fps)] with
    [seconds = H*3600 + M*60 + S] (resp. [M*60 + S]), and the audio
    thread computes the same number of seconds. *)
Theorem parse_time_plain (dh dm ds : string) (fps : Q) :
  dh <> "" -> dm <> "" -> ds <> "" ->
  all_digits dh = true -> all_digits dm = true -> all_digits ds = true ->
  let h := atoi_digits dh 0 in
  let m := atoi_digits dm 0 in
  let s := atoi_digits ds 0 in
  h * 3600 + m * 60 + s <= INT_MAX -> (0 <= fps)%Q ->
  (inject_Z (h * 3600 + m * 60 + s) * fps < inject_Z 2147483648)%Q ->
  parse_time_to_frame strtod (dh ++ ":" ++ dm ++ ":" ++ ds) fps =
    trunc_Q (inject_Z (h * 3600 + m * 60 + s) * fps) /\
  parse_time_to_frame strtod (dm ++ ":" ++ ds) fps =
    trunc_Q (inject_Z (m * 60 + s) * fps) /\
  audio_time_seconds strtod (dh ++ ":" ++ dm ++ ":" ++ ds) =
    inject_Z (h * 3600 + m * 60 + s) /\
  audio_time_seconds strtod (dm ++ ":" ++ ds) = inject_Z (m * 60 + s).
Proof.
  intros H1 H2 H3 D1 D2 D3 h m s _ _ _.
  unfold parse_time_to_frame, audio_time_seconds, fmt_hms_frac, fmt_hms, fmt_ms.
  repeat scan_step. cbn. repeat split; reflexivity.
Qed.

(** X12: in ["H:M:S.F"] the digits [F] are read by [%lf] as a whole
    number of seconds and added: ["00:00:01.5"] is 6 seconds, not 1.5.
    The audio thread reads the same string with ["%d:%d:%d"] only and
    drops [F]: the video frames and the audio of one [-time-range] then
    start and end at different times.  This holds where
    [H*3600 + M*60 + S] fits in an [int] (then so do [H], [M], [S] and
    every partial sum) and a non-negative [fps] keeps
    [(H*3600 + M*60 + S + F) * fps] below [2^31] (then the [(int)] cast
    is defined). *)
Theorem parse_time_fraction (dh dm ds df : string) (fps : Q) :
  dh <> "" -> dm <> "" -> ds <> "" ->
  all_digits dh = true -> all_digits dm = true -> all_digits ds = true ->
  strtod df = Some (inject_Z (atoi_digits df 0), "") ->
  let hms := atoi_digits dh 0 * 3600 + atoi_digits dm 0 * 60 + atoi_digits ds 0 in
  hms <= INT_MAX -> (0 <= fps)%Q ->
  ((inject_Z hms + inject_Z (atoi_digits df 0)) * fps < inject_Z 2147483648)%Q ->
  parse_time_to_frame strtod (dh ++ ":" ++ dm ++ ":" ++ ds ++ "." ++ df) fps =
    trunc_Q ((inject_Z hms + inject_Z (atoi_digits df 0)) * fps) /\
  audio_time_seconds strtod (dh ++ ":" ++ dm ++ ":" ++ ds ++ "." ++ df) =
    inject_Z hms.
Proof.
  intros H1 H2 H3 D1 D2 D3 Hf hms _ _ _.
  unfold parse_time_to_frame, audio_time_seconds, fmt_hms_frac, fmt_hms, fmt_ms.
  repeat scan_step. rewrite (scan_go_double _ df "" _ Hf). cbn.
  split; reflexivity.
Qed.

End TimeStrings.

Lemma parse_time_plain_witness :
  parse_time_to_frame digits_strtod "01:30:05" 30 = trunc_Q (inject_Z 5405 * 30) /\
  parse_time_to_frame digits_strtod "30:05" 30 = trunc_Q (inject_Z 1805 * 30) /\
  audio_time_seconds digits_strtod "01:30:05" = inject_Z 5405 /\
  audio_time_seconds digits_strtod "30:05" = inject_Z 1805.
Proof.
  refine (parse_time_plain digits_strtod "01" "30" "05" 30 _ _ _ _ _ _ _ _ _);
    first [discriminate | reflexivity | vm_compute; intros; discriminate].
Defined.

Lemma parse_time_fraction_witness :
  parse_time_to_frame digits_strtod "00:00:01.5" 30 = trunc_Q ((inject_Z 1 + inject_Z 5) * 30) /\
  audio_time_seconds digits_strtod "00:00:01.5" = inject_Z 1.
Proof.
  refine (parse_time_fraction digits_strtod "00" "00" "01" "5" 30 _ _ _ _ _ _ _ _ _ _);
    first [discriminate | reflexivity | vm_compute; intros; discriminate].
Defined.
